(** * Ticketron: the LLM response parser and the search field projection

    A shallow embedding of two parts of the Go sources:

    - [internal/llm/parser.go]: [jsonRegex] and [ParseLLMResponse];
    - the search command: [getValueByPath], [getValueRecursive],
      [extractFields] and the tsv branch of [searchRunE].

    Next to them come the callers and neighbours of these parts:
    [ConstructPrompt], [NewOpenAIClient] and [GenerateTicketDetails] of
    package llm, and [MapSuggestionToKey], [Resolve] and [Run] of the
    create command.

    A Go [string] is a sequence of bytes and is modelled by [string]
    (a list of [ascii], every one of the 256 byte values).  The library
    routines the code calls ([strings.TrimSpace], [strings.Split],
    [regexp.FindStringSubmatch], the [reflect] accessors) are modelled at
    the byte level next to the code that uses them.  Three library
    routines are kept as parameters of the sections that need them:
    [json.Unmarshal], [strings.EqualFold] (Unicode case folding) and the
    [%v] verb of [fmt.Sprintf]. *)

From Stdlib Require Import Ascii String List Bool Arith Lia.
From stdpp Require Import base option list gmap strings sorting.

Local Open Scope char_scope.

(** ** Package [strings] *)

Module GoStrings.

(** The byte view of a Go string and back. *)
Definition bytes (s : string) : list ascii := list_ascii_of_string s.
Definition str (l : list ascii) : string := string_of_list_ascii l.

Definition tab : ascii := "009".
Definition lf : ascii := "010".
Definition vt : ascii := "011".
Definition ff : ascii := "012".
Definition cr : ascii := "013".
Definition sp : ascii := " ".

(** [asciiSpace] of package strings: the six ASCII white-space bytes. *)
Definition asciiSpace (c : ascii) : bool :=
  Ascii.eqb c tab || Ascii.eqb c lf || Ascii.eqb c vt
  || Ascii.eqb c ff || Ascii.eqb c cr || Ascii.eqb c sp.

Definition byteIn (lo hi : nat) (c : ascii) : bool :=
  Nat.leb lo (nat_of_ascii c) && Nat.leb (nat_of_ascii c) hi.

(** The UTF-8 encodings of the white-space runes above U+007F for which
    [unicode.IsSpace] holds: U+0085 and U+00A0 take two bytes, ... *)
Definition spaceRune2 (c d : ascii) : bool :=
  Ascii.eqb c "194" && (Ascii.eqb d "133" || Ascii.eqb d "160").

(** ... and U+1680, U+2000..U+200A, U+2028, U+2029, U+202F, U+205F and
    U+3000 take three. *)
Definition spaceRune3 (c d e : ascii) : bool :=
  (Ascii.eqb c "225" && Ascii.eqb d "154" && Ascii.eqb e "128")
  || (Ascii.eqb c "226" && Ascii.eqb d "128"
      && (byteIn 128 138 e || Ascii.eqb e "168" || Ascii.eqb e "169"
          || Ascii.eqb e "175"))
  || (Ascii.eqb c "226" && Ascii.eqb d "129" && Ascii.eqb e "159")
  || (Ascii.eqb c "227" && Ascii.eqb d "128" && Ascii.eqb e "128").

(** [TrimLeftFunc(s, unicode.IsSpace)]: drop leading white-space runes.
    A rune that does not decode to white space (an ASCII byte, another
    rune or an invalid byte) stops the scan. *)
Fixpoint trimLeftSpace (s : list ascii) : list ascii :=
  match s with
  | [] => []
  | c :: s1 =>
      if asciiSpace c then trimLeftSpace s1
      else
        match s1 with
        | [] => s
        | d :: s2 =>
            if spaceRune2 c d then trimLeftSpace s2
            else
              match s2 with
              | [] => s
              | e :: s3 => if spaceRune3 c d e then trimLeftSpace s3 else s
              end
        end
  end.

(** The same scan from the end, on the reversed bytes: the head of [r] is
    the last byte of the string ([utf8.DecodeLastRuneInString] steps back
    to the nearest leading byte and accepts the rune only if it ends at
    the end of the string). *)
Fixpoint trimRevSpace (r : list ascii) : list ascii :=
  match r with
  | [] => []
  | c :: r1 =>
      if asciiSpace c then trimRevSpace r1
      else
        match r1 with
        | [] => r
        | d :: r2 =>
            if spaceRune2 d c then trimRevSpace r2
            else
              match r2 with
              | [] => r
              | e :: r3 => if spaceRune3 e d c then trimRevSpace r3 else r
              end
        end
  end.

Definition trimRightSpace (s : list ascii) : list ascii :=
  rev (trimRevSpace (rev s)).

Definition trimSpaceBytes (s : list ascii) : list ascii :=
  trimRightSpace (trimLeftSpace s).

(** [strings.TrimSpace]. *)
Definition TrimSpace (s : string) : string := str (trimSpaceBytes (bytes s)).

(** A byte below 128 that is not white space: it stops both scans. *)
Definition plainByte (c : ascii) : Prop :=
  asciiSpace c = false /\ Nat.ltb (nat_of_ascii c) 128 = true.

Fixpoint hasPrefixBytes (s prefix : list ascii) {struct prefix} : bool :=
  match prefix, s with
  | [], _ => true
  | p :: prefix', c :: s' => Ascii.eqb c p && hasPrefixBytes s' prefix'
  | _ :: _, [] => false
  end.

(** [strings.HasPrefix] and [strings.HasSuffix]. *)
Definition HasPrefix (s prefix : string) : bool :=
  hasPrefixBytes (bytes s) (bytes prefix).

Definition HasSuffix (s suffix : string) : bool :=
  hasPrefixBytes (rev (bytes s)) (rev (bytes suffix)).

(** [strings.Split(s, sep)] for a separator of one byte, as at its call
    sites (["."] and [","]): the pieces between the separators, one piece
    (the whole string, possibly empty) when there is none. *)
Fixpoint splitBytes (sep : ascii) (s : list ascii) : list (list ascii) :=
  match s with
  | [] => [[]]
  | c :: s' =>
      if Ascii.eqb c sep then [] :: splitBytes sep s'
      else
        match splitBytes sep s' with
        | cur :: rest => (c :: cur) :: rest
        | [] => [[c]]
        end
  end.

Definition Split (s : string) (sep : ascii) : list string :=
  map str (splitBytes sep (bytes s)).

(** [strings.Join(elems, sep)]. *)
Fixpoint Join (elems : list string) (sep : string) : string :=
  match elems with
  | [] => EmptyString
  | [e] => e
  | e :: rest => (e ++ sep ++ Join rest sep)%string
  end.

(** [strings.ReplaceAll(s, old, new)] for [old] and [new] of one byte each,
    as at its three call sites. *)
Fixpoint ReplaceAll (s : string) (old new : ascii) : string :=
  match s with
  | EmptyString => EmptyString
  | String c s' =>
      String (if Ascii.eqb c old then new else c) (ReplaceAll s' old new)
  end.

(** The text after the first occurrence of [sep] in [s] (the third result
    of [strings.Cut]), [None] when [sep] does not occur. *)
Fixpoint cutBytes (sep s : list ascii) : option (list ascii) :=
  if hasPrefixBytes s sep then Some (skipn (length sep) s)
  else
    match s with
    | [] => None
    | _ :: s' => cutBytes sep s'
    end.

Definition After (s sep : string) : option string :=
  option_map str (cutBytes (bytes sep) (bytes s)).

(** [strings.Contains]. *)
Definition Contains (s substr : string) : bool :=
  match cutBytes (bytes substr) (bytes s) with
  | Some _ => true
  | None => false
  end.

(** [strings.EqualFold] restricted to the folding of the ASCII letters;
    it is the instance at which the examples are evaluated. *)
Definition toLowerASCII (c : ascii) : ascii :=
  if byteIn 65 90 c then ascii_of_nat (nat_of_ascii c + 32) else c.

Fixpoint EqualFoldASCII (s t : string) : bool :=
  match s, t with
  | EmptyString, EmptyString => true
  | String a s', String b t' =>
      Ascii.eqb (toLowerASCII a) (toLowerASCII b) && EqualFoldASCII s' t'
  | _, _ => false
  end.

End GoStrings.

(** ** Package [regexp]: a backtracking matcher *)

Module GoRegexp.
Import GoStrings.

(** The fragment of the regular-expression syntax that [jsonRegex] uses.
    A star is applied to one-byte classes only.  The patterns here are
    ASCII, and [.] runs under the [s] flag, so matching bytes and
    matching runes select the same substrings. *)
Inductive regex : Type :=
| Byte (p : ascii -> bool)
| Seq (r1 r2 : regex)
| Opt (r : regex)
| StarByte (p : ascii -> bool)
| Group (r : regex).

(** The language of a pattern: the texts a whole match may cover. *)
Fixpoint inLang (r : regex) (s : list ascii) : Prop :=
  match r with
  | Byte p => exists c, s = [c] /\ p c = true
  | Seq r1 r2 => exists a b, s = a ++ b /\ inLang r1 a /\ inLang r2 b
  | Opt r1 => s = [] \/ inLang r1 s
  | StarByte p => forallb p s = true
  | Group r1 => inLang r1 s
  end.

(** Greedy star of a byte class: take as many bytes as possible, give
    them back one at a time while the continuation [k] fails. *)
Fixpoint starByte {R : Type} (p : ascii -> bool) (s : list ascii)
    (k : list ascii -> option R) : option R :=
  match s with
  | [] => k []
  | c :: s' =>
      if p c then
        match starByte p s' k with
        | Some r => Some r
        | None => k s
        end
      else k s
  end.

(** [rmatch r s cap k]: match [r] at the start of [s] and pass the rest of
    the input and the text of the capturing group to [k]; alternatives
    are tried in the order of a backtracking engine (leftmost-first, the
    order of Go's regexp package): a greedy operator first tries to take
    more. *)
Fixpoint rmatch {R : Type} (r : regex) (s : list ascii)
    (cap : option (list ascii))
    (k : list ascii -> option (list ascii) -> option R) : option R :=
  match r with
  | Byte p =>
      match s with
      | c :: s' => if p c then k s' cap else None
      | [] => None
      end
  | Seq r1 r2 => rmatch r1 s cap (fun s' cap' => rmatch r2 s' cap' k)
  | Opt r1 =>
      match rmatch r1 s cap k with
      | Some x => Some x
      | None => k s cap
      end
  | StarByte p => starByte p s (fun s' => k s' cap)
  | Group r1 =>
      rmatch r1 s cap
        (fun s' _ => k s' (Some (firstn (length s - length s') s)))
  end.

(** One attempt at the start of [s]: the text of the whole match and of
    the group. *)
Definition matchHere (r : regex) (s : list ascii)
    : option (list ascii * list ascii) :=
  rmatch r s None
    (fun s' cap =>
       Some (firstn (length s - length s') s,
             match cap with Some g => g | None => [] end)).

(** The leftmost match: the first start position at which an attempt
    succeeds. *)
Fixpoint findSubmatch (r : regex) (s : list ascii)
    : option (list ascii * list ascii) :=
  match matchHere r s with
  | Some m => Some m
  | None =>
      match s with
      | [] => None
      | _ :: s' => findSubmatch r s'
      end
  end.

(** [Regexp.FindStringSubmatch] for a pattern with one group: the
    slice [whole; group], or nil when the pattern does not match. *)
Definition FindStringSubmatch (r : regex) (s : string) : list string :=
  match findSubmatch r (bytes s) with
  | Some (whole, g) => [str whole; str g]
  | None => []
  end.

Definition lit (c : ascii) : regex := Byte (Ascii.eqb c).
Definition oneOf (c1 c2 : ascii) : regex :=
  Byte (fun c => Ascii.eqb c c1 || Ascii.eqb c c2).

(** [\s] of RE2: tab, line feed, form feed, carriage return and space
    (no vertical tab). *)
Definition reSpace (c : ascii) : bool :=
  Ascii.eqb c tab || Ascii.eqb c lf || Ascii.eqb c ff
  || Ascii.eqb c cr || Ascii.eqb c sp.

(** [.] under the [s] flag. *)
Definition reAny (c : ascii) : bool := true.

End GoRegexp.

(** ** Package [llm]: parser.go and errors.go *)

Module Llm.
Import GoStrings GoRegexp.

Record LLMResponse : Type := {
  Summary : string;
  Description : string;
  ProjectNameSuggestion : string
}.

(** [LLMResponse{}]. *)
Definition zeroLLMResponse : LLMResponse :=
  {| Summary := ""; Description := ""; ProjectNameSuggestion := "" |}.

(** The errors [ParseLLMResponse] returns: the sentinel
    [ErrLLMResponseJSONFind], [ErrLLMResponseJSONUnmarshal] wrapping the
    decoder's error, and [ErrLLMResponseMissingField] followed by the name
    of the field. *)
Inductive parseError (jsonError : Type) : Type :=
| ErrLLMResponseJSONFind
| ErrLLMResponseJSONUnmarshal (err : jsonError)
| ErrLLMResponseMissingField (field : string).

Arguments ErrLLMResponseJSONFind {jsonError}.
Arguments ErrLLMResponseJSONUnmarshal {jsonError} err.
Arguments ErrLLMResponseMissingField {jsonError} field.

Definition backquote : ascii := "096".

(** [jsonRegex], piece by piece:
    [(?s)\x60{3}(?:[jJ][sS][oO][nN])?\s*(\{.*\})\s*\x60{3}]. *)

(** [\x60{3}] *)
Definition fence3 : regex :=
  Seq (lit backquote) (Seq (lit backquote) (lit backquote)).

(** [(?:[jJ][sS][oO][nN])?] *)
Definition jsonTag : regex :=
  Opt (Seq (oneOf "j" "J") (Seq (oneOf "s" "S")
        (Seq (oneOf "o" "O") (oneOf "n" "N")))).

(** [\s*] *)
Definition spaces : regex := StarByte reSpace.

(** [(\{.*\})] *)
Definition object : regex :=
  Group (Seq (lit "{") (Seq (StarByte reAny) (lit "}"))).

Definition jsonRegex : regex :=
  Seq fence3 (Seq jsonTag (Seq spaces (Seq object (Seq spaces fence3)))).

(** The vocabulary of the claims about fences.  A fence marker is three
    backquotes; the language tag after an opening fence is absent or the
    four letters of json in either case; the padding around the object is
    made of the white space of the pattern. *)
Definition fenceMark : string := "```".

Definition tagBytes (tag : list ascii) : bool :=
  match tag with
  | [] => true
  | [j; s; o; n] =>
      (Ascii.eqb j "j" || Ascii.eqb j "J")
      && (Ascii.eqb s "s" || Ascii.eqb s "S")
      && (Ascii.eqb o "o" || Ascii.eqb o "O")
      && (Ascii.eqb n "n" || Ascii.eqb n "N")
  | _ => false
  end.

Definition languageTag (tag : string) : bool := tagBytes (bytes tag).

(** A text that does not start with the first letter of the tag. *)
Definition notJ (s : list ascii) : Prop :=
  match s with
  | [] => True
  | c :: _ => (Ascii.eqb c "j" || Ascii.eqb c "J") = false
  end.

Definition blank (s : string) : bool := forallb reSpace (bytes s).

(** Lines 41-63 of [ParseLLMResponse]: the JSON string handed to the
    decoder, or [None] where the function returns
    [ErrLLMResponseJSONFind]. *)
Definition jsonCandidate (rawResponse : string) : option string :=
  let m := FindStringSubmatch jsonRegex rawResponse in
  let found :=
    if Nat.eqb (length m) 2 then Some (nth 1 m EmptyString)
    else
      let trimmed := TrimSpace rawResponse in
      if HasPrefix trimmed "{" && HasSuffix trimmed "}" then Some trimmed
      else None in
  match found with
  | Some jsonStr => Some (TrimSpace jsonStr)
  | None => None
  end.

Section Parse.

(** [json.Unmarshal([]byte(jsonStr), &response)]: from the text and the
    value [response] holds before the call, the value it holds after the
    call and the error returned ([None] for nil).  The decoder may have
    written some fields before it reports an error. *)
Variable jsonError : Type.
Variable json_Unmarshal :
  string -> LLMResponse -> LLMResponse * option jsonError.

Definition ParseLLMResponse (rawResponse : string)
    : LLMResponse * option (parseError jsonError) :=
  match jsonCandidate rawResponse with
  | None => (zeroLLMResponse, Some ErrLLMResponseJSONFind)
  | Some jsonStr =>
      match json_Unmarshal jsonStr zeroLLMResponse with
      | (_, Some err) =>
          (zeroLLMResponse, Some (ErrLLMResponseJSONUnmarshal err))
      | (response, None) =>
          if String.eqb (Summary response) "" then
            (response, Some (ErrLLMResponseMissingField "summary"))
          else if String.eqb (ProjectNameSuggestion response) "" then
            (response,
             Some (ErrLLMResponseMissingField "project_name_suggestion"))
          else (response, None)
      end
  end.

End Parse.

End Llm.

(** ** Package [mcpclient]: the records the search returns *)

Module Mcpclient.

Record Status : Type := { Status_Name : string }.

Record IssueType : Type := { IssueType_Name : string }.

Record IssueFields : Type := {
  IssueFields_Summary : string;
  IssueFields_Status : Status;
  IssueFields_IssueType : IssueType;
  IssueFields_Description : string
}.

Record Issue : Type := {
  Issue_Key : string;
  Issue_ID : string;
  Issue_Self : string;
  Issue_Fields : IssueFields
}.

End Mcpclient.

(** ** Package [reflect]: the values the traversal inspects *)

Module Reflect.

(** What the traversal reads of a [reflect.StructField]: the declared
    name, [Tag.Get("json")] (empty when the tag has no json key) and
    [IsExported()].  A field value obtained from an addressable-or-not
    struct can be turned into an interface exactly when every field on the
    way to it is exported; the traversal only ever steps through fields it
    has checked with [CanInterface], so on the values it holds
    [CanInterface] of a field value is the field's [IsExported]. *)
Record StructField : Type := {
  Name : string;
  Tag_json : string;
  IsExported : bool
}.

(** A Go value as [reflect] classifies it.  The model covers struct types
    without embedded fields and maps whose key type is [string] or not of
    kind String; values are finite trees (no pointer cycles). *)
#[warnings="-register-all"]
Inductive value : Type :=
| VString (s : string)
| VInt (n : Z)
| VBool (b : bool)
| VSlice (elems : list value)
| VPtr (target : option value)       (* Kind Ptr; [None]: a nil pointer *)
| VIface (dynamic : option value)    (* Kind Interface; [None]: nil *)
| VStruct (fields : list (StructField * value))
| VMap (entries : list (string * value))
    (* Kind Map with string keys, in the order [MapRange] yields them;
       a nil map has no entries *)
| VMapOther.                         (* Kind Map, keys not of kind String *)

(** A [reflect.Value]: [None] is the zero Value ([IsValid] is false, its
    Kind is Invalid). *)
Definition Value : Type := option value.

(** An [interface{}]: nil, or a dynamic value. *)
Definition any : Type := option value.

(** [Value.Interface()] of a valid Value: a Value of kind Interface hands
    out the interface it holds (nil when it is nil); any other value,
    a nil pointer included, is boxed as it is. *)
Definition Interface (v : value) : any :=
  match v with
  | VIface dynamic => dynamic
  | _ => Some v
  end.

(** [Type.FieldByNameFunc] on a struct type without embedded fields: the
    one field whose name satisfies [match_]; several such fields cancel
    each other. *)
Definition FieldByNameFunc (match_ : string -> bool)
    (fields : list (StructField * value)) : option (StructField * value) :=
  match List.filter (fun f => match_ (Name (fst f))) fields with
  | [f] => Some f
  | _ => None
  end.

(** [Value.MapIndex] with a string key. *)
Fixpoint MapIndex (entries : list (string * value)) (key : string)
    : Value :=
  match entries with
  | [] => None
  | (k, v) :: rest => if String.eqb k key then Some v else MapIndex rest key
  end.

End Reflect.

(** ** Package [cmd]: the search command *)

Module Cmd.
Import GoStrings Mcpclient Reflect.

(** [reflect.ValueOf] on the records of package mcpclient, with the json
    keys of their struct tags. *)
Definition exported (name tag : string) : StructField :=
  {| Name := name; Tag_json := tag; IsExported := true |}.

Definition reflectStatus (s : Status) : value :=
  VStruct [(exported "Name" "name", VString (Status_Name s))].

Definition reflectIssueType (t : IssueType) : value :=
  VStruct [(exported "Name" "name", VString (IssueType_Name t))].

Definition reflectIssueFields (f : IssueFields) : value :=
  VStruct
    [(exported "Summary" "summary", VString (IssueFields_Summary f));
     (exported "Status" "status", reflectStatus (IssueFields_Status f));
     (exported "IssueType" "issuetype",
      reflectIssueType (IssueFields_IssueType f));
     (exported "Description" "description,omitempty",
      VString (IssueFields_Description f))].

Definition reflectIssue (i : Issue) : value :=
  VStruct
    [(exported "Key" "key", VString (Issue_Key i));
     (exported "ID" "id", VString (Issue_ID i));
     (exported "Self" "self", VString (Issue_Self i));
     (exported "Fields" "fields", reflectIssueFields (Issue_Fields i))].

(** The loop at the head of [getValueRecursive]: follow pointers and
    interfaces down to a value of another kind; [None] when a nil one is
    met. *)
Fixpoint deref (current : value) : option value :=
  match current with
  | VPtr None => None
  | VPtr (Some target) => deref target
  | VIface None => None
  | VIface (Some dynamic) => deref dynamic
  | _ => Some current
  end.

(** Values without pointers, interfaces and maps: strings, numbers,
    booleans and structs of such values. *)
Fixpoint concrete (v : value) : bool :=
  match v with
  | VString _ | VInt _ | VBool _ => true
  | VStruct fields => forallb (fun f => concrete (snd f)) fields
  | _ => false
  end.

Section Traversal.

(** [strings.EqualFold]: equality under Unicode simple case folding. *)
Variable EqualFold : string -> string -> bool.

(** Step 2 of the struct case: the first field, in declaration order,
    whose json tag name is the segment, whose tag is not ["-"] and whose
    value can be turned into an interface. *)
Fixpoint jsonTagLookup (fields : list (StructField * value))
    (part : string) : option (StructField * value) :=
  match fields with
  | [] => None
  | (structField, fieldValByIndex) :: rest =>
      let jsonTag := Tag_json structField in
      let tagName := hd EmptyString (Split jsonTag ",") in
      if String.eqb tagName part && negb (String.eqb jsonTag "-")
         && IsExported structField
      then Some (structField, fieldValByIndex)
      else jsonTagLookup rest part
  end.

(** The struct case: the member a segment selects, by declared name
    first, by json tag otherwise. *)
Definition structLookup (fields : list (StructField * value))
    (part : string) : option (StructField * value) :=
  let byName :=
    match FieldByNameFunc (fun name => EqualFold name part) fields with
    | Some (structField, fieldVal) =>
        if IsExported structField
           && negb (String.eqb (Tag_json structField) "-")
        then Some (structField, fieldVal)
        else None
    | None => None
    end in
  match byName with
  | Some f => Some f
  | None => jsonTagLookup fields part
  end.

(** The scan of the map case, in [MapRange] order. *)
Fixpoint mapFoldLookup (entries : list (string * value)) (part : string)
    : Value :=
  match entries with
  | [] => None
  | (k, v) :: rest =>
      if EqualFold k part then Some v else mapFoldLookup rest part
  end.

(** The map case: the exact key, else the first key equal under case
    folding. *)
Definition mapLookup (entries : list (string * value)) (part : string)
    : Value :=
  match MapIndex entries part with
  | Some v => Some v
  | None => mapFoldLookup entries part
  end.

Fixpoint getValueRecursive (current : Value) (pathParts : list string)
    : Value * bool :=
  match pathParts with
  | [] => (current, true)
  | part :: remainingParts =>
      match current with
      | None => (None, false)
      | Some cur =>
          match deref cur with
          | None => (None, false)
          | Some (VStruct fields) =>
              match structLookup fields part with
              | Some (_, nextVal) =>
                  getValueRecursive (Some nextVal) remainingParts
              | None => (None, false)
              end
          | Some (VMap entries) =>
              match mapLookup entries part with
              | Some mapValue =>
                  getValueRecursive (Some mapValue) remainingParts
              | None => (None, false)
              end
          | Some _ => (None, false)
          end
      end
  end.

(** [reflect.ValueOf(data)] of an [interface{}] is the zero Value for nil
    and the Value of the dynamic value otherwise.  Every Value the
    traversal returns can be turned into an interface (see
    [StructField]), so the [CanInterface] test of the source is the
    validity test. *)
Definition getValueByPath (data : any) (path : string) : any * bool :=
  let parts := Split path "." in
  match getValueRecursive data parts with
  | (Some val, true) => (Interface val, true)
  | _ => (None, false)
  end.

(** The value [extractFields] stores under a path: the value found, nil
    when the path is not found. *)
Definition projected (issue : Issue) (fieldPath : string) : any :=
  match getValueByPath (Some (reflectIssue issue)) fieldPath with
  | (value, true) => value
  | (_, false) => None
  end.

(** [extractFields]: a Go map from each requested path to the value found,
    or to nil. *)
Definition extractFields (issue : Issue) (fields : list string)
    : gmap string any :=
  foldl
    (fun result fieldPath =>
       match getValueByPath (Some (reflectIssue issue)) fieldPath with
       | (value, true) => <[fieldPath := value]> result
       | (_, false) => <[fieldPath := None]> result
       end)
    ∅ fields.

(** Lines 144-158 of [searchRunE]: the field list of the
    [--output-fields] flag. *)
Definition parseOutputFields (outputFieldsStr : string) : list string :=
  if String.eqb outputFieldsStr "" then []
  else
    List.filter (fun trimmedField => negb (String.eqb trimmedField ""))
      (map TrimSpace (Split outputFieldsStr ",")).

(** The data handed to [json.MarshalIndent] and [yaml.Marshal] when the
    field list is not empty. *)
Definition filteredIssues (fields : list string) (issues : list Issue)
    : list (gmap string any) :=
  map (fun issue => extractFields issue fields) issues.

Definition defaultTsvFields : list string :=
  ["key"; "fields.summary"; "fields.status.name"; "fields.issuetype.name"]
  %string.

Definition tsvFields (outputFieldsStr : string) : list string :=
  let fields := parseOutputFields outputFieldsStr in
  if negb (String.eqb outputFieldsStr "") then
    if Nat.ltb 0 (length fields) then fields else defaultTsvFields
  else defaultTsvFields.

(** [fmt.Sprintf("%v", value)] for a non-nil [value]. *)
Variable Sprintf_v : value -> string.

(** The body of the inner loop of the tsv case: one cell. *)
Definition tsvCell (issue : any) (fieldPath : string) : string :=
  match getValueByPath issue fieldPath with
  | (Some value, true) =>
      ReplaceAll (ReplaceAll (ReplaceAll (Sprintf_v value) tab sp) lf sp)
        cr sp
  | _ => EmptyString
  end.

Definition tabS : string := String tab EmptyString.

Definition tsvRow (fields : list string) (issue : Issue) : string :=
  Join (map (tsvCell (Some (reflectIssue issue))) fields) tabS.

(** The tsv case of [searchRunE]: the lines written to [out]. *)
Definition searchTSV (outputFieldsStr : string) (issues : list Issue)
    : list string :=
  match issues with
  | [] => ["No issues found."%string]
  | _ :: _ =>
      let tsvFields := tsvFields outputFieldsStr in
      Join tsvFields tabS :: map (tsvRow tsvFields) issues
  end.

End Traversal.

(** A text without tab. *)
Definition tabFree (s : string) : Prop := ~ In tab (bytes s).

(** [encoding/json] writes the entries of a map in the byte order of
    their keys. *)
Definition stringLe (s1 s2 : string) : Prop := String.leb s1 s2 = true.

#[global] Instance stringLe_dec : RelDecision stringLe.
Proof. intros s1 s2. unfold stringLe. apply _. Defined.

Definition jsonObjectKeys (m : gmap string any) : list string :=
  merge_sort stringLe (map_to_list m).*1.

End Cmd.

(** ** Data of the repository's tests, and instances of the parameters *)

Module Samples.
Import GoStrings Llm Mcpclient Reflect Cmd.
Local Open Scope string_scope.

Definition quote : string := String "034" "".
Definition newline : string := String lf "".
Definition fence : string := fenceMark.

(** [{"description":"D"}] *)
Definition docDescriptionOnly : string :=
  "{" ++ quote ++ "description" ++ quote ++ ":" ++ quote ++ "D" ++ quote
  ++ "}".

(** [{"summary":"S","description":"D"}] *)
Definition docNoProject : string :=
  "{" ++ quote ++ "summary" ++ quote ++ ":" ++ quote ++ "S" ++ quote ++ ","
  ++ quote ++ "description" ++ quote ++ ":" ++ quote ++ "D" ++ quote ++ "}".

(** [{"summary":"Fix bug","project_name_suggestion":"Web"}] *)
Definition docFixBug : string :=
  "{" ++ quote ++ "summary" ++ quote ++ ":" ++ quote ++ "Fix bug" ++ quote
  ++ "," ++ quote ++ "project_name_suggestion" ++ quote ++ ":" ++ quote
  ++ "Web" ++ quote ++ "}".

(** [json.Unmarshal] on the three documents above: the members present
    are written, the others keep the value they had.  Any other text is
    answered with an error and nothing written, as the empty text is. *)
Definition sampleUnmarshal (jsonStr : string) (response : LLMResponse)
    : LLMResponse * option string :=
  if String.eqb jsonStr docDescriptionOnly then
    ({| Summary := Summary response; Description := "D";
        ProjectNameSuggestion := ProjectNameSuggestion response |}, None)
  else if String.eqb jsonStr docNoProject then
    ({| Summary := "S"; Description := "D";
        ProjectNameSuggestion := ProjectNameSuggestion response |}, None)
  else if String.eqb jsonStr docFixBug then
    ({| Summary := "Fix bug"; Description := Description response;
        ProjectNameSuggestion := "Web" |}, None)
  else (response, Some "unexpected end of JSON input").

(** The end-to-end blob of the specification:
    [Here:\n```json\n{...}\n```\nThanks]. *)
Definition blobFixBug : string :=
  "Here:" ++ newline ++ fence ++ "json" ++ newline ++ docFixBug ++ newline
  ++ fence ++ newline ++ "Thanks".

(** Two fenced blocks in one response. *)
Definition blobTwoBlocks : string :=
  fence ++ "json" ++ newline ++ docFixBug ++ newline ++ fence ++ newline
  ++ "or" ++ newline ++ fence ++ "json" ++ newline ++ docNoProject
  ++ newline ++ fence.

(** What the fence pattern captures in [blobTwoBlocks]. *)
Definition spanTwoBlocks : string :=
  docFixBug ++ newline ++ fence ++ newline ++ "or" ++ newline ++ fence
  ++ "json" ++ newline ++ docNoProject.

(** A bare JSON object whose text opens a fence that is never closed:
    [{"summary":"S","description":"```json"}]. *)
Definition objectWithOpenFence : string :=
  "{" ++ quote ++ "summary" ++ quote ++ ":" ++ quote ++ "S" ++ quote ++ ","
  ++ quote ++ "description" ++ quote ++ ":" ++ quote ++ fence ++ "json"
  ++ quote ++ "}".

(** The test case "Malformed fence - missing closing backticks", with a
    shorter object. *)
Definition blobOpenFence : string :=
  fence ++ "json" ++ newline ++ docFixBug.

(** The records of [createMockSearchResponse]. *)
Definition issue1 : Issue :=
  {| Issue_Key := "TEST-1"; Issue_ID := "10001";
     Issue_Self := "http://jira.example.com/rest/api/2/issue/10001";
     Issue_Fields :=
       {| IssueFields_Summary := "Found issue 1 with details";
          IssueFields_Status := {| Status_Name := "Open" |};
          IssueFields_IssueType := {| IssueType_Name := "Bug" |};
          IssueFields_Description := "This is the first test issue." |} |}.

Definition issue2 : Issue :=
  {| Issue_Key := "TEST-2"; Issue_ID := "10002";
     Issue_Self := "http://jira.example.com/rest/api/2/issue/10002";
     Issue_Fields :=
       {| IssueFields_Summary := "Found issue 2";
          IssueFields_Status := {| Status_Name := "In Progress" |};
          IssueFields_IssueType := {| IssueType_Name := "Task" |};
          IssueFields_Description :=
            "Second issue" ++ newline ++ "with newline." |} |}.

(** [TestStruct] of [TestGetValueByPath], with its [Nested] pointer as a
    parameter ([None]: the nil pointer of the last test case). *)
Definition testNested : value :=
  VStruct [(exported "Value" "nestedValue", VString "nestedValue1")].

Definition testFields (nested : option value)
    : list (StructField * value) :=
  [(exported "Key" "key", VString "value1");
   (exported "Nested" "nested", VPtr nested);
   (exported "Map" "",
    VMap
      [("mapKey1", VIface (Some (VString "mapValue1")));
       ("nestedMap",
        VIface (Some (VMap [("innerKey", VString "innerValue")])))]);
   (exported "SkipMe" "-", VString "should be skipped");
   (exported "NoTag" "", VString "noTagValue")].

Definition testStruct (nested : option value) : value :=
  VStruct (testFields nested).

(** The [%v] form of the values the examples print: a string prints as
    itself, a nil pointer as [<nil>], a struct as its members between
    braces.  (Go prints a non-nil nested pointer by its address and a map
    in key order; the examples print neither.) *)
Fixpoint sampleSprintf (v : value) : string :=
  match v with
  | VString s => s
  | VBool b => if b then "true" else "false"
  | VStruct fields =>
      "{" ++ Join (map (fun f => match f with (_, fv) => sampleSprintf fv end)
                     fields) " " ++ "}"
  | VSlice elems => "[" ++ Join (map sampleSprintf elems) " " ++ "]"
  | VPtr None => "<nil>"
  | VIface None => "<nil>"
  | VIface (Some dynamic) => sampleSprintf dynamic
  | _ => "?"
  end.

End Samples.

(** ** Package [llm]: prompt.go and client.go *)

Module LlmClient.
Import GoStrings Llm.
Local Open Scope string_scope.

Definition nl : string := String lf "".
Definition dq : string := String "034" "".

(** [ConstructPrompt]: the strings written to the builder, in order. *)
Definition promptParts (userInput systemPrompt context : string)
    : list string :=
  [systemPrompt; nl ++ nl]
  ++ (if negb (String.eqb context "") then
        ["Relevant Context:" ++ nl; context; nl ++ nl]
      else [])
  ++ ["User Request:" ++ nl; userInput; nl ++ nl;
      "Based on the user request and context, generate a response in "
      ++ "the following JSON format ONLY:" ++ nl;
      "{" ++ nl;
      "  " ++ dq ++ "summary" ++ dq ++ ": " ++ dq
      ++ "<A concise summary of the ticket/task>" ++ dq ++ "," ++ nl;
      "  " ++ dq ++ "description" ++ dq ++ ": " ++ dq
      ++ "<A detailed description of the ticket/task>" ++ dq ++ "," ++ nl;
      "  " ++ dq ++ "project_name_suggestion" ++ dq ++ ": " ++ dq
      ++ "<A suggested project name based on the request>" ++ dq ++ nl;
      "}" ++ nl;
      "Ensure the output is a single, valid JSON object and nothing else."].

Definition ConstructPrompt (userInput systemPrompt context : string)
    : string :=
  String.concat "" (promptParts userInput systemPrompt context).

(** The role of the one message of the request,
    [openai.ChatMessageRoleUser]. *)
Inductive role : Type := ChatMessageRoleUser.

Record ChatCompletionMessage : Type := {
  Role : role;
  Content : string
}.

Record ChatCompletionRequest : Type := {
  Model : string;
  Messages : list ChatCompletionMessage
}.

(** [openai.GPT4o], the model the warning of [NewOpenAIClient] names. *)
Definition GPT4o : string := "gpt-4o".

Section Client.

(** [CreateChatCompletion] of the openai client: the error of the call, or
    the message contents of the choices of the response, in order. *)
Variable apiError : Type.

Definition openaiClient : Type :=
  ChatCompletionRequest -> apiError + list string.

(** [OpenAIClient]; [None] is a nil [*openai.Client]. *)
Record OpenAIClient : Type := {
  client : option openaiClient;
  modelName : string
}.

Variable jsonError : Type.
Variable json_Unmarshal :
  string -> LLMResponse -> LLMResponse * option jsonError.

(** The errors of client.go: three sentinels, [ErrLLMCompletion] wrapping
    the error of the call, and the error of the parser wrapped in
    "failed to parse LLM response". *)
Inductive clientError : Type :=
| ErrLLMClientNil
| ErrLLMPromptEmpty
| ErrLLMCompletion (err : apiError)
| ErrLLMEmptyResponse
| ErrParseResponse (err : parseError jsonError).

Definition NewOpenAIClient (c : option openaiClient) (name : string)
    : option OpenAIClient * option clientError :=
  match c with
  | None => (None, Some ErrLLMClientNil)
  | Some _ =>
      let name := if String.eqb name "" then GPT4o else name in
      (Some {| client := c; modelName := name |}, None)
  end.

Definition GenerateTicketDetails (o : OpenAIClient)
    (userInput systemPrompt contextContent : string)
    : LLMResponse * option clientError :=
  let fullPrompt := ConstructPrompt userInput systemPrompt contextContent in
  match client o with
  | None => (zeroLLMResponse, Some ErrLLMClientNil)
  | Some api =>
      if String.eqb fullPrompt "" then
        (zeroLLMResponse, Some ErrLLMPromptEmpty)
      else
        let req :=
          {| Model := modelName o;
             Messages :=
               [{| Role := ChatMessageRoleUser; Content := fullPrompt |}] |}
        in
        match api req with
        | inl err => (zeroLLMResponse, Some (ErrLLMCompletion err))
        | inr [] => (zeroLLMResponse, Some ErrLLMEmptyResponse)
        | inr (rawResponse :: _) =>
            match ParseLLMResponse jsonError json_Unmarshal rawResponse with
            | (_, Some err) => (zeroLLMResponse, Some (ErrParseResponse err))
            | (parsedResponse, None) => (parsedResponse, None)
            end
        end
  end.

End Client.

Arguments ErrLLMClientNil {apiError jsonError}.
Arguments ErrLLMPromptEmpty {apiError jsonError}.
Arguments ErrLLMCompletion {apiError jsonError} err.
Arguments ErrLLMEmptyResponse {apiError jsonError}.
Arguments ErrParseResponse {apiError jsonError} err.
Arguments client {apiError} o.
Arguments modelName {apiError} o.

End LlmClient.

(** ** Package [cmd]: the project mapper and the issue type resolver of
    the create command *)

Module Create.
Import GoStrings.
Local Open Scope string_scope.

(** [config.ProjectLink] and [config.LinksConfig]; [Projects] is [None]
    for a nil slice. *)
Record ProjectLink : Type := {
  ProjectLink_Name : string;
  ProjectLink_Key : string;
  ProjectLink_DefaultIssueType : string
}.

Record LinksConfig : Type := {
  Projects : option (list ProjectLink)
}.

(** The two errors of [MapSuggestionToKey]: the one made on the spot for
    a nil configuration, and [config.ErrProjectMappingFailed]. *)
Inductive mapError : Type :=
| ErrLinksNilOrEmpty
| ErrProjectMappingFailed.

Section Mapper.

Variable EqualFold : string -> string -> bool.

(** The loop of [MapSuggestionToKey]. *)
Fixpoint firstLink (suggestion : string) (projects : list ProjectLink)
    : option ProjectLink :=
  match projects with
  | [] => None
  | link :: rest =>
      if EqualFold suggestion (ProjectLink_Name link) then Some link
      else firstLink suggestion rest
  end.

(** A link that the test of the loop rejects. *)
Definition noMatch (suggestion : string) (link : ProjectLink) : Prop :=
  EqualFold suggestion (ProjectLink_Name link) = false.

(** [MapSuggestionToKey]; [linksCfg] is [None] for a nil pointer.  The
    link returned points into the slice, which nothing writes to: it is
    modelled by the element. *)
Definition MapSuggestionToKey (suggestion : string)
    (linksCfg : option LinksConfig)
    : string * option ProjectLink * option mapError :=
  match linksCfg with
  | None => ("", None, Some ErrLinksNilOrEmpty)
  | Some cfg =>
      match Projects cfg with
      | None => ("", None, Some ErrLinksNilOrEmpty)
      | Some projects =>
          match firstLink suggestion projects with
          | Some link => (ProjectLink_Key link, Some link, None)
          | None => ("", None, Some ErrProjectMappingFailed)
          end
      end
  end.

End Mapper.

Definition defaultIssueType : string := "Task".

(** [Resolve]; [matchedProjectLink] is [None] for a nil pointer. *)
Definition Resolve (flagType : string)
    (matchedProjectLink : option ProjectLink) (projectKey : string)
    : string :=
  if negb (String.eqb flagType "") then flagType
  else
    match matchedProjectLink with
    | Some link =>
        if negb (String.eqb (ProjectLink_DefaultIssueType link) "") then
          ProjectLink_DefaultIssueType link
        else defaultIssueType
    | None => defaultIssueType
    end.

(** [mcpclient.CreateIssueRequest] and [mcpclient.CreateIssueResponse]. *)
Record CreateIssueRequest : Type := {
  CreateIssueRequest_ProjectKey : string;
  CreateIssueRequest_Summary : string;
  CreateIssueRequest_Description : string;
  CreateIssueRequest_IssueType : string
}.

Record CreateIssueResponse : Type := {
  CreateIssueResponse_Key : string;
  CreateIssueResponse_ID : string;
  CreateIssueResponse_Self : string
}.

(** [loadedConfigs], without [appConfig], which [Run] does not read. *)
Record loadedConfigs : Type := {
  linksConfig : option LinksConfig;
  systemPrompt : string;
  contextData : string
}.

Section Runner.

(** The errors of the parts of [Run] that are not modelled: loading the
    configuration, the language model client, the MCP client, reading
    the answer of the user, and encoding the output. *)
Variables loadError llmError mcpError inputError formatError : Type.

(** [llm.Client]: its method [GenerateTicketDetails], on the user input,
    the system prompt and the context. *)
Definition llmClient : Type :=
  string -> string -> string -> Llm.LLMResponse * option llmError.

(** [MCPClient]: its method [CreateIssue], the one [Run] calls. *)
Definition MCPClient : Type :=
  CreateIssueRequest -> mcpError + CreateIssueResponse.

(** [createCmdRunner]; a nil interface is [None].  The configuration
    provider is represented by the result of [loadAllConfigs] on it,
    an argument of [Run]. *)
Record createCmdRunner : Type := {
  runner_llmClient : option llmClient;
  runner_mcpClient : option MCPClient;
  projectMapper :
    string -> option LinksConfig
    -> string * option ProjectLink * option mapError;
  issueTypeResolver : string -> option ProjectLink -> string -> string
}.

(** The errors [Run] returns, by the step that failed. *)
Inductive runError : Type :=
| ErrLoad (err : loadError)
| ErrLLMNotInitialized
| ErrGenerate (err : llmError)
| ErrMapping (err : mapError)
| ErrMCPNotInitialized
| ErrInput (err : inputError)
| ErrCreateIssue (err : mcpError)
| ErrFormat (err : formatError).

(** The method [Run] of [createCmdRunner]: the requests passed to [CreateIssue], in
    order, and the error returned.  [loaded] is the result of
    [loadAllConfigs], [issueTypeFlag] the value of the [--type] flag,
    [confirmInteractively] and [formatOutput] the two helpers, which
    depend on flags, on the standard input and on the encoder. *)
Definition Run (r : createCmdRunner) (loaded : loadError + loadedConfigs)
    (args : list string) (issueTypeFlag : string)
    (confirmInteractively : CreateIssueRequest -> inputError + bool)
    (formatOutput : CreateIssueResponse -> option formatError)
    : list CreateIssueRequest * option runError :=
  match loaded with
  | inl err => ([], Some (ErrLoad err))
  | inr loadedCfgs =>
      let userInput := Join args " " in
      match runner_llmClient r with
      | None => ([], Some ErrLLMNotInitialized)
      | Some llmClient =>
          match
            llmClient userInput (systemPrompt loadedCfgs)
              (contextData loadedCfgs)
          with
          | (_, Some err) => ([], Some (ErrGenerate err))
          | (llmResponse, None) =>
              match
                projectMapper r (Llm.ProjectNameSuggestion llmResponse)
                  (linksConfig loadedCfgs)
              with
              | (_, _, Some err) => ([], Some (ErrMapping err))
              | (mappedProjectKey, matchedProjectLink, None) =>
                  let finalIssueType :=
                    issueTypeResolver r issueTypeFlag matchedProjectLink
                      mappedProjectKey in
                  match runner_mcpClient r with
                  | None => ([], Some ErrMCPNotInitialized)
                  | Some mcpClient =>
                      let request :=
                        {| CreateIssueRequest_ProjectKey := mappedProjectKey;
                           CreateIssueRequest_Summary :=
                             Llm.Summary llmResponse;
                           CreateIssueRequest_Description :=
                             Llm.Description llmResponse;
                           CreateIssueRequest_IssueType := finalIssueType |}
                      in
                      match confirmInteractively request with
                      | inl err => ([], Some (ErrInput err))
                      | inr false => ([], None)
                      | inr true =>
                          match mcpClient request with
                          | inl err => ([request], Some (ErrCreateIssue err))
                          | inr resp =>
                              match formatOutput resp with
                              | Some err => ([request], Some (ErrFormat err))
                              | None => ([request], None)
                              end
                          end
                      end
                  end
              end
          end
      end
  end.

Variable EqualFold : string -> string -> bool.

(** The runner of [newCreateCmdRunner], for a provider with the clients
    [LLM] and [MCP]: the mapper and the resolver are the default ones. *)
Definition newCreateCmdRunner (LLM : option llmClient)
    (MCP : option MCPClient) : createCmdRunner :=
  {| runner_llmClient := LLM;
     runner_mcpClient := MCP;
     projectMapper := MapSuggestionToKey EqualFold;
     issueTypeResolver := Resolve |}.

End Runner.

Arguments Run {loadError llmError mcpError inputError formatError}.
Arguments newCreateCmdRunner {llmError mcpError}.
Arguments runner_llmClient {llmError mcpError}.
Arguments runner_mcpClient {llmError mcpError}.
Arguments projectMapper {llmError mcpError}.
Arguments issueTypeResolver {llmError mcpError}.
Arguments ErrLoad {loadError llmError mcpError inputError formatError}.
Arguments ErrLLMNotInitialized
  {loadError llmError mcpError inputError formatError}.
Arguments ErrGenerate {loadError llmError mcpError inputError formatError}.
Arguments ErrMapping {loadError llmError mcpError inputError formatError}.
Arguments ErrMCPNotInitialized
  {loadError llmError mcpError inputError formatError}.
Arguments ErrInput {loadError llmError mcpError inputError formatError}.
Arguments ErrCreateIssue
  {loadError llmError mcpError inputError formatError}.
Arguments ErrFormat {loadError llmError mcpError inputError formatError}.

End Create.

(** ** Predicates of the further properties *)

Module Extra.
Import GoStrings GoRegexp.

(** A text that starts with a white-space rune, as the left scan of
    [TrimSpace] sees it; [endsSpaceRev] is the same for the right scan,
    on the reversed bytes. *)
Definition startsSpace (s : list ascii) : bool :=
  match s with
  | [] => false
  | c :: s1 =>
      asciiSpace c
      || match s1 with
         | [] => false
         | d :: s2 =>
             spaceRune2 c d
             || match s2 with
                | [] => false
                | e :: _ => spaceRune3 c d e
                end
         end
  end.

Definition endsSpaceRev (r : list ascii) : bool :=
  match r with
  | [] => false
  | c :: r1 =>
      asciiSpace c
      || match r1 with
         | [] => false
         | d :: r2 =>
             spaceRune2 d c
             || match r2 with
                | [] => false
                | e :: _ => spaceRune3 e d c
                end
         end
  end.

(** The texts a capturing group of a pattern may capture. *)
Fixpoint groupLang (r : regex) (g : list ascii) : Prop :=
  match r with
  | Byte _ => False
  | Seq r1 r2 => groupLang r1 g \/ groupLang r2 g
  | Opt r1 => groupLang r1 g
  | StarByte _ => False
  | Group r1 => inLang r1 g
  end.

(** A text of bytes below 128. *)
Definition isASCII (s : string) : bool :=
  forallb (fun c => Nat.ltb (nat_of_ascii c) 128) (bytes s).

(** The three replacements of a tsv cell, on one byte. *)
Definition sanitizeByte (c : ascii) : ascii :=
  if Ascii.eqb c tab || Ascii.eqb c lf || Ascii.eqb c cr then sp else c.

Definition sanitize (s : string) : string :=
  ReplaceAll (ReplaceAll (ReplaceAll s tab sp) lf sp) cr sp.

(** [jsonRegex] up to its closing fence. *)
Definition untilClose : regex :=
  Seq Llm.fence3
    (Seq Llm.jsonTag (Seq Llm.spaces (Seq Llm.object Llm.spaces))).

(** A flag value made of commas and ASCII white space only. *)
Definition onlySeparators (s : string) : bool :=
  forallb (fun c => Ascii.eqb c "," || asciiSpace c) (bytes s).

End Extra.

(** ** Sample data of the create command *)

Module CreateSamples.
Import GoStrings Llm Create.
Local Open Scope string_scope.

Definition acme : ProjectLink :=
  {| ProjectLink_Name := "Acme Web"; ProjectLink_Key := "ACME";
     ProjectLink_DefaultIssueType := "Story" |}.

Definition infra : ProjectLink :=
  {| ProjectLink_Name := "Infra"; ProjectLink_Key := "OPS";
     ProjectLink_DefaultIssueType := "" |}.

Definition shadowed : ProjectLink :=
  {| ProjectLink_Name := "INFRA"; ProjectLink_Key := "OLD";
     ProjectLink_DefaultIssueType := "Bug" |}.

Definition links : LinksConfig :=
  {| Projects := Some [acme; infra; shadowed] |}.

Definition sampleConfigs : loadedConfigs :=
  {| linksConfig := Some links;
     systemPrompt := "You write tickets.";
     contextData := "" |}.

Definition sampleAnswer : LLMResponse :=
  {| Summary := "Fix login";
     Description := "Login fails on Safari.";
     ProjectNameSuggestion := "infra" |}.

(** A language model client that answers [sampleAnswer] to the input
    "fix login" and fails on any other. *)
Definition sampleLLM : llmClient unit :=
  fun userInput _ _ =>
    if String.eqb userInput "fix login" then (sampleAnswer, None)
    else (zeroLLMResponse, Some tt).

Definition sampleMCP : MCPClient unit :=
  fun request =>
    inr {| CreateIssueResponse_Key :=
             CreateIssueRequest_ProjectKey request ++ "-1";
           CreateIssueResponse_ID := "10001";
           CreateIssueResponse_Self := "http://jira/OPS-1" |}.

Definition sampleRequest : CreateIssueRequest :=
  {| CreateIssueRequest_ProjectKey := "OPS";
     CreateIssueRequest_Summary := "Fix login";
     CreateIssueRequest_Description := "Login fails on Safari.";
     CreateIssueRequest_IssueType := "Task" |}.

End CreateSamples.

(** * Properties *)

(** ** Bytes and strings *)

Module StringFacts.
Import GoStrings.

Lemma str_bytes (s : string) : str (bytes s) = s.
Proof. apply string_of_list_ascii_of_string. Qed.

Lemma bytes_str (l : list ascii) : bytes (str l) = l.
Proof. apply list_ascii_of_string_of_list_ascii. Qed.

Lemma bytes_app (s t : string) :
  bytes (s ++ t)%string = bytes s ++ bytes t.
Proof.
  unfold bytes. induction s as [|c s IH]; simpl; [reflexivity|].
  now rewrite IH.
Qed.

Lemma str_app (l m : list ascii) : str (l ++ m) = (str l ++ str m)%string.
Proof.
  unfold str. induction l as [|c l IH]; simpl; [reflexivity|].
  now rewrite IH.
Qed.

Lemma bytes_inj (s t : string) : bytes s = bytes t -> s = t.
Proof. intros H. rewrite <- (str_bytes s), <- (str_bytes t). now f_equal. Qed.

(** Two concatenations of the same pieces, bracketed differently. *)
Ltac same_bytes :=
  apply bytes_inj; rewrite !bytes_app, <- !app_assoc; reflexivity.

(** The white space of the pattern is white space for [TrimSpace]. *)
Lemma reSpace_asciiSpace (c : ascii) :
  GoRegexp.reSpace c = true -> asciiSpace c = true.
Proof.
  unfold GoRegexp.reSpace, asciiSpace. intros H.
  repeat (apply orb_true_iff in H; destruct H as [H|H]);
    rewrite H; rewrite ?orb_true_r; reflexivity.
Qed.

Lemma trimLeftSpace_spaces (ws rest : list ascii) :
  forallb asciiSpace ws = true ->
  trimLeftSpace (ws ++ rest) = trimLeftSpace rest.
Proof.
  induction ws as [|w ws IH]; simpl; [reflexivity|].
  intros H. apply andb_true_iff in H as [Hw Hws]. rewrite Hw. auto.
Qed.

Lemma trimRevSpace_spaces (ws rest : list ascii) :
  forallb asciiSpace ws = true ->
  trimRevSpace (ws ++ rest) = trimRevSpace rest.
Proof.
  induction ws as [|w ws IH]; simpl; [reflexivity|].
  intros H. apply andb_true_iff in H as [Hw Hws]. rewrite Hw. auto.
Qed.

Lemma plainByte_not_lead2 (c d : ascii) :
  plainByte c -> spaceRune2 c d = false.
Proof.
  intros [_ H]. unfold spaceRune2.
  destruct (Ascii.eqb_spec c "194") as [->|]; [discriminate H|reflexivity].
Qed.

Lemma plainByte_not_lead3 (c d e : ascii) :
  plainByte c -> spaceRune3 c d e = false.
Proof.
  intros [_ H]. unfold spaceRune3.
  destruct (Ascii.eqb_spec c "225") as [->|]; [discriminate H|].
  destruct (Ascii.eqb_spec c "226") as [->|]; [discriminate H|].
  destruct (Ascii.eqb_spec c "227") as [->|]; [discriminate H|].
  reflexivity.
Qed.

Lemma plainByte_not_last2 (c d : ascii) :
  plainByte c -> spaceRune2 d c = false.
Proof.
  intros [_ H]. unfold spaceRune2.
  destruct (Ascii.eqb_spec c "133") as [->|]; [discriminate H|].
  destruct (Ascii.eqb_spec c "160") as [->|]; [discriminate H|].
  now rewrite andb_false_r.
Qed.

Lemma byteIn_high (c : ascii) :
  Nat.ltb (nat_of_ascii c) 128 = true -> byteIn 128 138 c = false.
Proof.
  unfold byteIn. intros H. apply Nat.ltb_lt in H.
  destruct (Nat.leb_spec 128 (nat_of_ascii c)); [lia|reflexivity].
Qed.

Lemma plainByte_not_last3 (c d e : ascii) :
  plainByte c -> spaceRune3 e d c = false.
Proof.
  intros [_ H]. unfold spaceRune3. rewrite (byteIn_high c H).
  destruct (Ascii.eqb_spec c "128") as [->|]; [discriminate H|].
  destruct (Ascii.eqb_spec c "168") as [->|]; [discriminate H|].
  destruct (Ascii.eqb_spec c "169") as [->|]; [discriminate H|].
  destruct (Ascii.eqb_spec c "175") as [->|]; [discriminate H|].
  destruct (Ascii.eqb_spec c "159") as [->|]; [discriminate H|].
  now rewrite !andb_false_r.
Qed.

Lemma trimLeftSpace_plain (c : ascii) (rest : list ascii) :
  plainByte c -> trimLeftSpace (c :: rest) = c :: rest.
Proof.
  intros Hc. simpl. destruct Hc as [Hs Hl] eqn:E. rewrite Hs.
  destruct rest as [|d rest]; [reflexivity|].
  rewrite (plainByte_not_lead2 c d (conj Hs Hl)).
  destruct rest as [|e rest]; [reflexivity|].
  now rewrite (plainByte_not_lead3 c d e (conj Hs Hl)).
Qed.

Lemma trimRevSpace_plain (c : ascii) (rest : list ascii) :
  plainByte c -> trimRevSpace (c :: rest) = c :: rest.
Proof.
  intros Hc. simpl. destruct Hc as [Hs Hl] eqn:E. rewrite Hs.
  destruct rest as [|d rest]; [reflexivity|].
  rewrite (plainByte_not_last2 c d (conj Hs Hl)).
  destruct rest as [|e rest]; [reflexivity|].
  now rewrite (plainByte_not_last3 c d e (conj Hs Hl)).
Qed.

Lemma rev_app_cons (a w : list ascii) (d : ascii) :
  rev (a ++ d :: w) = rev w ++ d :: rev a.
Proof. rewrite rev_app_distr. simpl. now rewrite <- app_assoc. Qed.

(** Trimming a text that is padded with ASCII white space and whose
    first and last bytes are plain leaves the text between the paddings. *)
Lemma trimSpaceBytes_padded (ws1 ws2 mid : list ascii) (c d : ascii) :
  forallb asciiSpace ws1 = true -> forallb asciiSpace ws2 = true ->
  plainByte c -> plainByte d ->
  trimSpaceBytes (ws1 ++ c :: mid ++ d :: ws2) = c :: mid ++ [d].
Proof.
  intros H1 H2 Hc Hd. unfold trimSpaceBytes, trimRightSpace.
  rewrite trimLeftSpace_spaces, trimLeftSpace_plain by assumption.
  change (c :: mid ++ d :: ws2) with ((c :: mid) ++ d :: ws2).
  change (c :: mid ++ [d]) with ((c :: mid) ++ [d]).
  generalize (c :: mid). intros body.
  rewrite rev_app_cons, trimRevSpace_spaces, trimRevSpace_plain; trivial.
  - simpl. now rewrite rev_involutive.
  - rewrite forallb_forall in *. intros x Hx. apply H2.
    now apply in_rev.
Qed.

End StringFacts.

(** ** The matcher *)

Module RegexpFacts.
Import GoStrings GoRegexp.

Lemma starByte_sound {R : Type} (p : ascii -> bool) (s : list ascii)
    (k : list ascii -> option R) (x : R) :
  starByte p s k = Some x ->
  exists s1 s2, s = s1 ++ s2 /\ forallb p s1 = true /\ k s2 = Some x.
Proof.
  induction s as [|c s IH]; simpl; intros H.
  - now exists [], [].
  - destruct (p c) eqn:Hc.
    + destruct (starByte p s k) as [y|] eqn:E.
      * injection H as ->. destruct (IH eq_refl) as (s1 & s2 & -> & H1 & H2).
        exists (c :: s1), s2. simpl. now rewrite Hc, H1.
      * now exists [], (c :: s).
    + now exists [], (c :: s).
Qed.

(** Soundness: a successful attempt splits the input into a text of the
    pattern's language and a rest that the continuation accepts. *)
Lemma rmatch_sound (r : regex) :
  forall {R : Type} (s : list ascii) (cap : option (list ascii))
         (k : list ascii -> option (list ascii) -> option R) (x : R),
    rmatch r s cap k = Some x ->
    exists s1 s2 cap', s = s1 ++ s2 /\ inLang r s1 /\ k s2 cap' = Some x.
Proof.
  induction r as [p|r1 IH1 r2 IH2|r1 IH1|p|r1 IH1]; intros R s cap k x H;
    simpl in H.
  - destruct s as [|c s]; [discriminate|].
    destruct (p c) eqn:Hc; [|discriminate].
    exists [c], s, cap. repeat split; [|assumption]. now exists c.
  - apply IH1 in H as (a & s' & cap1 & -> & Ha & H).
    apply IH2 in H as (b & s2 & cap2 & -> & Hb & H).
    exists (a ++ b), s2, cap2. rewrite <- app_assoc.
    repeat split; [|assumption]. now exists a, b.
  - destruct (rmatch r1 s cap k) as [y|] eqn:E.
    + injection H as ->. apply IH1 in E as (s1 & s2 & cap' & -> & H1 & H2).
      exists s1, s2, cap'. repeat split; [|assumption]. now right.
    + exists [], s, cap. repeat split; [|assumption]. now left.
  - apply starByte_sound in H as (s1 & s2 & -> & H1 & H2).
    exists s1, s2, cap. now repeat split.
  - apply IH1 in H as (s1 & s2 & cap' & -> & H1 & H2).
    now exists s1, s2, (Some (firstn (length (s1 ++ s2) - length s2) (s1 ++ s2))).
Qed.

(** A greedy star takes a whole run of bytes of its class when the byte
    after the run is of another class and the continuation accepts
    there. *)
Lemma starByte_run {R : Type} (p : ascii -> bool) (ws rest : list ascii)
    (k : list ascii -> option R) (x : R) :
  forallb p ws = true ->
  match rest with [] => True | c :: _ => p c = false end ->
  k rest = Some x ->
  starByte p (ws ++ rest) k = Some x.
Proof.
  intros Hws Hrest Hk. induction ws as [|w ws IH]; simpl.
  - destruct rest as [|c rest]; simpl; [assumption|]. now rewrite Hrest.
  - simpl in Hws. apply andb_true_iff in Hws as [Hw Hws].
    now rewrite Hw, (IH Hws).
Qed.

(** A greedy star whose continuation fails at every later position ends
    where the continuation first accepts, seen from the end. *)
Lemma starByte_stay {R : Type} (p : ascii -> bool) (b : list ascii)
    (k : list ascii -> option R) :
  (forall u t, u <> [] -> b = u ++ t -> k t = None) ->
  starByte p b k = k b.
Proof.
  induction b as [|c b IH]; intros Hlater; simpl; [reflexivity|].
  destruct (p c); [|reflexivity].
  rewrite IH.
  - now rewrite (Hlater [c] b).
  - intros u t Hu ->. apply (Hlater (c :: u) t); [discriminate|reflexivity].
Qed.

Lemma starByte_last {R : Type} (p : ascii -> bool) (a b : list ascii)
    (k : list ascii -> option R) (x : R) :
  forallb p a = true ->
  k b = Some x ->
  (forall u t, u <> [] -> b = u ++ t -> k t = None) ->
  starByte p (a ++ b) k = Some x.
Proof.
  intros Ha Hk Hlater. induction a as [|c a IH]; simpl.
  - rewrite starByte_stay; assumption.
  - simpl in Ha. apply andb_true_iff in Ha as [Hc Ha].
    now rewrite Hc, (IH Ha).
Qed.

Lemma firstn_length_diff (a b : list ascii) :
  firstn (length (a ++ b) - length b) (a ++ b) = a.
Proof.
  rewrite length_app. replace (length a + length b - length b) with (length a)
    by lia.
  rewrite firstn_app, Nat.sub_diag, firstn_all. simpl. apply app_nil_r.
Qed.

Lemma findSubmatch_sound (r : regex) (s : list ascii)
    (m : list ascii * list ascii) :
  findSubmatch r s = Some m ->
  exists pre s1 s2, s = pre ++ s1 ++ s2 /\ inLang r s1.
Proof.
  induction s as [|c s IH]; simpl.
  - destruct (matchHere r []) eqn:E; [|discriminate]. intros _.
    apply rmatch_sound in E as (s1 & s2 & _ & Hs & H1 & _).
    exists [], s1, s2. auto.
  - destruct (matchHere r (c :: s)) eqn:E.
    + intros _. apply rmatch_sound in E as (s1 & s2 & _ & Hs & H1 & _).
      exists [], s1, s2. auto.
    + intros H. apply IH in H as (pre & s1 & s2 & -> & H1).
      exists (c :: pre), s1, s2. auto.
Qed.

End RegexpFacts.

(** ** The fence pattern *)

Module FenceFacts.
Import GoStrings GoRegexp Llm StringFacts RegexpFacts.

Abbreviation bq := backquote.
Abbreviation fenceB := [bq; bq; bq].

Lemma rmatch_fence3 {R : Type} (s : list ascii) (cap : option (list ascii))
    (k : list ascii -> option (list ascii) -> option R) :
  rmatch fence3 (bq :: bq :: bq :: s) cap k = k s cap.
Proof. reflexivity. Qed.

Lemma inLang_fence3 (b : list ascii) : inLang fence3 b -> b = fenceB.
Proof.
  intros (a1 & b1 & -> & (c & -> & Hc) & a2 & b2 & -> & (d & -> & Hd)
          & e & -> & He).
  apply Ascii.eqb_eq in Hc, Hd, He. now subst.
Qed.

Lemma rmatch_jsonTag {R : Type} (tag s : list ascii)
    (cap : option (list ascii))
    (k : list ascii -> option (list ascii) -> option R) (x : R) :
  tagBytes tag = true -> (tag = [] -> notJ s) ->
  k s cap = Some x ->
  rmatch jsonTag (tag ++ s) cap k = Some x.
Proof.
  intros Htag Hs Hk.
  destruct tag as [|j [|s' [|o [|n [|? ?]]]]]; try discriminate Htag.
  - simpl app. unfold jsonTag. cbn [rmatch].
    specialize (Hs eq_refl). destruct s as [|c s].
    + simpl. assumption.
    + simpl in Hs. unfold oneOf. cbn [rmatch]. rewrite Hs. assumption.
  - simpl in Htag. repeat (apply andb_true_iff in Htag as [Htag ?]).
    unfold jsonTag, oneOf. cbn [rmatch app].
    repeat match goal with H : (_ || _) = true |- _ => rewrite H; clear H end.
    now rewrite Hk.
Qed.

Lemma rmatch_spaces {R : Type} (ws rest : list ascii)
    (cap : option (list ascii))
    (k : list ascii -> option (list ascii) -> option R) (x : R) :
  forallb reSpace ws = true ->
  match rest with [] => True | c :: _ => reSpace c = false end ->
  k rest cap = Some x ->
  rmatch spaces (ws ++ rest) cap k = Some x.
Proof.
  intros Hws Hrest Hk. unfold spaces. cbn [rmatch].
  now apply starByte_run.
Qed.

Lemma rmatch_object {R : Type} (mid rest : list ascii)
    (cap : option (list ascii))
    (k : list ascii -> option (list ascii) -> option R) (x : R) :
  k rest (Some ("{" :: mid ++ ["}"])) = Some x ->
  (forall u t g, rest = u ++ "}" :: t -> k t (Some g) = None) ->
  rmatch object ("{" :: mid ++ "}" :: rest) cap k = Some x.
Proof.
  intros Hk Hlater. unfold object, lit. cbn [rmatch]. rewrite Ascii.eqb_refl.
  apply starByte_last.
  - apply forallb_forall. reflexivity.
  - rewrite Ascii.eqb_refl.
    change ("{" :: mid ++ "}" :: rest) with (("{" :: mid) ++ "}" :: rest).
    replace (("{" :: mid) ++ "}" :: rest)
      with ((("{" :: mid) ++ ["}"]) ++ rest)
      by (rewrite <- app_assoc; reflexivity).
    rewrite firstn_length_diff. exact Hk.
  - intros u t Hu Hut. destruct t as [|c t]; [reflexivity|].
    destruct (Ascii.eqb "}" c) eqn:Hc; [|reflexivity].
    apply Ascii.eqb_eq in Hc. subst c.
    destruct u as [|c u]; [congruence|]. injection Hut as <- ->.
    now apply (Hlater u t).
Qed.

(** The text after the first fence marker ends with whatever followed a
    later marker. *)
Lemma cutBytes_fence_app (a t : list ascii) :
  exists z, cutBytes fenceB (a ++ bq :: bq :: bq :: t) = Some (z ++ t).
Proof.
  induction a as [|c a [z IH]].
  - exists []. reflexivity.
  - cbn [cutBytes app].
    destruct (hasPrefixBytes (c :: a ++ bq :: bq :: bq :: t) fenceB) eqn:E.
    + exists (skipn 3 ((c :: a) ++ fenceB)).
      change (c :: a ++ bq :: bq :: bq :: t) with ((c :: a) ++ fenceB ++ t).
      rewrite app_assoc, skipn_app.
      replace (length fenceB - length ((c :: a) ++ fenceB)) with 0
        by (rewrite length_app; simpl; lia).
      reflexivity.
    + exists z. exact IH.
Qed.

Lemma cutBytes_fence_none (a t : list ascii) :
  cutBytes fenceB (a ++ bq :: bq :: bq :: t) <> None.
Proof. destruct (cutBytes_fence_app a t) as [z ->]. discriminate. Qed.

Lemma cutBytes_fence_tail (c : ascii) (s : list ascii) :
  cutBytes fenceB (c :: s) = None -> cutBytes fenceB s = None.
Proof.
  cbn [cutBytes].
  now destruct (hasPrefixBytes (c :: s) fenceB).
Qed.

(** A closing brace inside [ws ++ fence ++ post] lies in [post]. *)
Lemma brace_in_post (ws post u t : list ascii) :
  forallb reSpace ws = true ->
  ws ++ bq :: bq :: bq :: post = u ++ "}" :: t ->
  exists u', post = u' ++ "}" :: t.
Proof.
  revert u. induction ws as [|w ws IH]; intros u Hws H.
  - destruct u as [|a [|b [|c u]]]; try discriminate H.
    injection H as _ _ _ ->. now exists u.
  - simpl in Hws. apply andb_true_iff in Hws as [Hw Hws].
    destruct u as [|a u].
    + injection H as -> _. discriminate Hw.
    + injection H as _ H. now apply (IH u).
Qed.

(** After the last closing brace that a fence follows, no later brace
    is followed by a fence. *)
Lemma no_later_close {R : Type} (ws post : list ascii)
    (k : list ascii -> option (list ascii) -> option R) :
  forallb reSpace ws = true ->
  cutBytes fenceB post = None ->
  forall u t g,
    ws ++ bq :: bq :: bq :: post = u ++ "}" :: t ->
    rmatch (Seq spaces fence3) t (Some g) k = None.
Proof.
  intros Hws Hpost u t g H.
  destruct (rmatch (Seq spaces fence3) t (Some g) k) as [y|] eqn:E;
    [exfalso|reflexivity].
  apply rmatch_sound in E as (s1 & s2 & _ & -> & (w & f & -> & _ & Hf) & _).
  apply inLang_fence3 in Hf. subst f.
  apply brace_in_post in H as [u' H]; [|assumption].
  apply (cutBytes_fence_none (u' ++ "}" :: w) s2).
  rewrite <- Hpost, H, <- !app_assoc. reflexivity.
Qed.

Lemma reSpace_not_tag (c : ascii) :
  reSpace c = true -> (Ascii.eqb c "j" || Ascii.eqb c "J") = false.
Proof.
  unfold reSpace. intros H.
  repeat (apply orb_true_iff in H; destruct H as [H|H]);
    apply Ascii.eqb_eq in H; subst c; reflexivity.
Qed.

(** One attempt at an opening fence: the group captures from the first
    opening brace to the last closing brace that a fence follows. *)
Lemma matchHere_block (tag ws1 mid ws2 post : list ascii) :
  tagBytes tag = true ->
  forallb reSpace ws1 = true -> forallb reSpace ws2 = true ->
  cutBytes fenceB post = None ->
  exists whole,
    matchHere jsonRegex
      (bq :: bq :: bq :: tag ++ ws1 ++ "{" :: mid ++ "}" :: ws2
         ++ bq :: bq :: bq :: post)
    = Some (whole, "{" :: mid ++ ["}"]).
Proof.
  intros Htag Hws1 Hws2 Hpost. eexists.
  unfold matchHere, jsonRegex. cbn [rmatch]. rewrite rmatch_fence3.
  apply rmatch_jsonTag; [assumption| |].
  { intros _. destruct ws1 as [|w ws1]; [reflexivity|].
    simpl in Hws1. apply andb_true_iff in Hws1 as [Hw _].
    now apply reSpace_not_tag. }
  apply rmatch_spaces; [assumption|reflexivity|].
  apply rmatch_object.
  - apply rmatch_spaces; [assumption|reflexivity|].
    rewrite rmatch_fence3. reflexivity.
  - intros u t g H.
    exact (no_later_close ws2 post _ Hws2 Hpost u t g H).
Qed.

Lemma matchHere_needs_fence (s : list ascii)
    (m : list ascii * list ascii) :
  matchHere jsonRegex s = Some m -> exists t, s = bq :: bq :: bq :: t.
Proof.
  intros H.
  apply rmatch_sound in H as (s1 & s2 & _ & -> & (f & b & -> & Hf & _) & _).
  apply inLang_fence3 in Hf. subst f. now exists (b ++ s2).
Qed.

Lemma matchHere_no_prefix (s : list ascii) :
  hasPrefixBytes s fenceB = false -> matchHere jsonRegex s = None.
Proof.
  intros H. destruct (matchHere jsonRegex s) as [m|] eqn:E; [|reflexivity].
  apply matchHere_needs_fence in E as [t ->]. discriminate H.
Qed.

(** Four backquotes in a row: the attempt at the first one fails, since
    the fourth is neither a tag, white space nor an opening brace. *)
Lemma matchHere_fence_bq (t : list ascii) :
  matchHere jsonRegex (bq :: bq :: bq :: bq :: t) = None.
Proof. reflexivity. Qed.

Lemma findSubmatch_here (r : regex) (s : list ascii)
    (m : list ascii * list ascii) :
  matchHere r s = Some m -> findSubmatch r s = Some m.
Proof. intros H. destruct s; simpl; now rewrite H. Qed.

Lemma cutBytes_none_prefix (s : list ascii) :
  cutBytes fenceB s = None -> hasPrefixBytes s fenceB = false.
Proof.
  destruct s as [|c s]; [reflexivity|]. cbn [cutBytes].
  now destruct (hasPrefixBytes (c :: s) fenceB).
Qed.

(** Before an opening fence that no fence marker precedes, no attempt
    succeeds: the leftmost match starts at that fence. *)
Lemma findSubmatch_skip (pre rest : list ascii)
    (m : list ascii * list ascii) :
  cutBytes fenceB pre = None ->
  matchHere jsonRegex (bq :: bq :: bq :: rest) = Some m ->
  findSubmatch jsonRegex (pre ++ bq :: bq :: bq :: rest) = Some m.
Proof.
  intros Hpre Hm. induction pre as [|c pre IH].
  - now apply findSubmatch_here.
  - cbn [app findSubmatch].
    assert (matchHere jsonRegex (c :: pre ++ bq :: bq :: bq :: rest) = None)
      as ->.
    { pose proof (cutBytes_none_prefix _ Hpre) as Hp.
      destruct pre as [|d [|e pre]].
      - destruct (Ascii.eqb_spec c bq) as [->|Hc].
        + apply matchHere_fence_bq.
        + apply matchHere_no_prefix. simpl.
          apply Ascii.eqb_neq in Hc. now rewrite Hc.
      - destruct (Ascii.eqb_spec c bq) as [->|Hc].
        + destruct (Ascii.eqb_spec d bq) as [->|Hd].
          * apply matchHere_fence_bq.
          * apply matchHere_no_prefix. simpl.
            apply Ascii.eqb_neq in Hd. now rewrite Hd.
        + apply matchHere_no_prefix. simpl.
          apply Ascii.eqb_neq in Hc. now rewrite Hc.
      - apply matchHere_no_prefix. exact Hp. }
    apply IH. now apply cutBytes_fence_tail with c.
Qed.

Lemma Contains_false (s : string) :
  Contains s fenceMark = false -> cutBytes fenceB (bytes s) = None.
Proof.
  unfold Contains. change (bytes fenceMark) with fenceB.
  now destruct (cutBytes fenceB (bytes s)).
Qed.

Lemma plain_open : plainByte "{".
Proof. split; reflexivity. Qed.

Lemma plain_close : plainByte "}".
Proof. split; reflexivity. Qed.

(** The candidate of a response that holds a fenced object: the text from
    the first opening brace after the first fence to the closing brace
    before the last fence. *)
Lemma jsonCandidate_fenced (pre tag ws1 mid ws2 post : string) :
  Contains pre fenceMark = false ->
  languageTag tag = true -> blank ws1 = true -> blank ws2 = true ->
  Contains post fenceMark = false ->
  jsonCandidate
    (pre ++ fenceMark ++ tag ++ ws1 ++ "{" ++ mid ++ "}" ++ ws2
       ++ fenceMark ++ post)%string
  = Some ("{" ++ mid ++ "}")%string.
Proof.
  intros Hpre Htag Hws1 Hws2 Hpost.
  apply Contains_false in Hpre, Hpost.
  destruct (matchHere_block (bytes tag) (bytes ws1) (bytes mid) (bytes ws2)
              (bytes post) Htag Hws1 Hws2 Hpost) as [whole Hm].
  apply (findSubmatch_skip (bytes pre)) in Hm; [|assumption].
  unfold jsonCandidate, FindStringSubmatch.
  rewrite !bytes_app. change (bytes fenceMark) with fenceB.
  change (bytes "{") with ["{"]. change (bytes "}") with ["}"].
  simpl app in *. rewrite Hm. cbn [length Nat.eqb nth].
  unfold TrimSpace. rewrite bytes_str.
  pose proof (trimSpaceBytes_padded [] [] (bytes mid) "{" "}" eq_refl
                eq_refl plain_open plain_close) as Ht.
  simpl app in Ht. rewrite Ht.
  f_equal. change ("{" :: bytes mid ++ ["}"]) with (["{"] ++ bytes mid ++ ["}"]).
  rewrite !str_app, str_bytes. reflexivity.
Qed.

End FenceFacts.

(** ** ParseLLMResponse *)

Module LlmSpec.
Import GoStrings GoRegexp Llm Samples StringFacts RegexpFacts FenceFacts.
Local Open Scope string_scope.

Lemma blank_asciiSpace (ws : string) :
  blank ws = true -> forallb asciiSpace (bytes ws) = true.
Proof.
  unfold blank. rewrite !forallb_forall. intros H c Hc.
  apply reSpace_asciiSpace. now apply H.
Qed.

Lemma TrimSpace_padded (ws1 mid ws2 : string) :
  blank ws1 = true -> blank ws2 = true ->
  TrimSpace (ws1 ++ "{" ++ mid ++ "}" ++ ws2) = "{" ++ mid ++ "}".
Proof.
  intros H1 H2. unfold TrimSpace. rewrite !bytes_app.
  change (bytes "{") with ["{"%char]. change (bytes "}") with ["}"%char].
  simpl app.
  rewrite (trimSpaceBytes_padded (bytes ws1) (bytes ws2) (bytes mid) "{" "}"
             (blank_asciiSpace _ H1) (blank_asciiSpace _ H2)
             plain_open plain_close).
  change ("{"%char :: bytes mid ++ ["}"%char])%list
    with (["{"%char] ++ bytes mid ++ ["}"%char])%list.
  rewrite !str_app, str_bytes. reflexivity.
Qed.

(** C5.  A response that holds a fenced block -- any text without a fence
    marker, a fence of three backquotes, no tag or the tag json in any
    case, then an interior made of white space, an object from an opening
    brace to a closing brace and white space, a closing fence, and any
    text without a fence marker -- has the trimmed interior of the fence
    as its candidate, byte for byte.  (A fence written with more than
    three backquotes is covered: the extra backquotes end [pre] and begin
    [post].) *)
Theorem fenced_block_candidate (pre tag ws1 mid ws2 post : string) :
  Contains pre fenceMark = false ->
  Contains post fenceMark = false ->
  languageTag tag = true ->
  blank ws1 = true -> blank ws2 = true ->
  jsonCandidate
    (pre ++ fenceMark ++ tag ++ (ws1 ++ "{" ++ mid ++ "}" ++ ws2)
       ++ fenceMark ++ post)
  = Some (TrimSpace (ws1 ++ "{" ++ mid ++ "}" ++ ws2)).
Proof.
  intros Hpre Hpost Htag H1 H2.
  rewrite TrimSpace_padded by assumption.
  rewrite <- (jsonCandidate_fenced pre tag ws1 mid ws2 post) by assumption.
  f_equal. same_bytes.
Qed.

(** The end-to-end blob of the specification is an instance: text before
    the fence, the tag json, a line feed on either side of the object and
    text after the fence. *)
Lemma fenced_block_candidate_witness :
  jsonCandidate blobFixBug = Some docFixBug.
Proof.
  exact (fenced_block_candidate ("Here:" ++ newline) "json" newline
           (quote ++ "summary" ++ quote ++ ":" ++ quote ++ "Fix bug" ++ quote
            ++ "," ++ quote ++ "project_name_suggestion" ++ quote ++ ":"
            ++ quote ++ "Web" ++ quote)
           newline (newline ++ "Thanks")
           eq_refl eq_refl eq_refl eq_refl eq_refl).
Defined.

(** The pattern is greedy: in a response with two fenced objects the
    group runs from the first opening brace to the closing brace of the
    second object. *)
Lemma two_blocks_candidate_spans :
  jsonCandidate blobTwoBlocks = Some spanTwoBlocks
  /\ Contains spanTwoBlocks docNoProject = true
  /\ spanTwoBlocks <> docFixBug.
Proof.
  split; [|split].
  - vm_compute. reflexivity.
  - vm_compute. reflexivity.
  - apply String.eqb_neq. vm_compute. reflexivity.
Qed.

(** C2, as the code has it.  In a response with two fenced objects and no
    fence marker after the second, the candidate is the text from the
    opening brace of the first object to the closing brace of the second:
    the closing fence of the first block, the text between the blocks,
    the opening fence and the tag of the second block and its content are
    all part of it.  Nothing is assumed of the text between the two
    objects. *)
Theorem two_fenced_blocks_candidate
    (pre tag1 ws1 mid1 ws2 between tag2 ws3 mid2 ws4 post : string) :
  Contains pre fenceMark = false ->
  Contains post fenceMark = false ->
  languageTag tag1 = true ->
  blank ws1 = true -> blank ws4 = true ->
  jsonCandidate
    (pre ++ fenceMark ++ tag1 ++ ws1 ++ "{" ++ mid1 ++ "}" ++ ws2
       ++ fenceMark ++ between
       ++ fenceMark ++ tag2 ++ ws3 ++ "{" ++ mid2 ++ "}" ++ ws4
       ++ fenceMark ++ post)
  = Some ("{" ++ mid1 ++ "}" ++ ws2 ++ fenceMark ++ between
            ++ fenceMark ++ tag2 ++ ws3 ++ "{" ++ mid2 ++ "}").
Proof.
  intros Hpre Hpost Htag H1 H4.
  pose proof (jsonCandidate_fenced pre tag1 ws1
                (mid1 ++ "}" ++ ws2 ++ fenceMark ++ between ++ fenceMark
                   ++ tag2 ++ ws3 ++ "{" ++ mid2)
                ws4 post Hpre Htag H1 H4 Hpost) as H.
  match type of H with
  | jsonCandidate ?a = Some ?b =>
      match goal with
      | |- jsonCandidate ?a' = Some ?b' =>
          replace a' with a; [replace b' with b; [exact H|]|]
      end
  end; same_bytes.
Qed.

Lemma two_fenced_blocks_candidate_witness :
  jsonCandidate blobTwoBlocks = Some spanTwoBlocks.
Proof.
  exact (two_fenced_blocks_candidate "" "json" newline
           (quote ++ "summary" ++ quote ++ ":" ++ quote ++ "Fix bug" ++ quote
            ++ "," ++ quote ++ "project_name_suggestion" ++ quote ++ ":"
            ++ quote ++ "Web" ++ quote)
           newline (newline ++ "or" ++ newline) "json" newline
           (quote ++ "summary" ++ quote ++ ":" ++ quote ++ "S" ++ quote ++ ","
            ++ quote ++ "description" ++ quote ++ ":" ++ quote ++ "D"
            ++ quote)
           newline ""
           eq_refl eq_refl eq_refl eq_refl eq_refl).
Defined.

(** A bare object whose text opens a fence that nothing closes: the
    fallback takes the whole object as the candidate. *)
Lemma open_fence_in_object_has_candidate :
  (exists rest, After objectWithOpenFence fenceMark = Some rest
                /\ Contains rest fenceMark = false)
  /\ jsonCandidate objectWithOpenFence = Some objectWithOpenFence.
Proof.
  split; [|vm_compute; reflexivity].
  eexists. split; vm_compute; reflexivity.
Qed.

Lemma inLang_jsonRegex (s : list ascii) :
  inLang jsonRegex s -> exists x, s = (fenceB ++ x ++ fenceB)%list.
Proof.
  intros (f & b1 & -> & Hf & tg & b2 & -> & _ & w & b3 & -> & _
          & o & b4 & -> & _ & w' & f' & -> & _ & Hf').
  apply inLang_fence3 in Hf, Hf'. subst f f'.
  exists (tg ++ w ++ o ++ w')%list. now rewrite <- !app_assoc.
Qed.

(** With one fence marker only, the pattern does not match. *)
Lemma open_fence_no_match (raw rest : string) :
  After raw fenceMark = Some rest -> Contains rest fenceMark = false ->
  FindStringSubmatch jsonRegex raw = [].
Proof.
  unfold After, Contains, FindStringSubmatch.
  change (bytes fenceMark) with fenceB. intros Hafter Hrest.
  destruct (findSubmatch jsonRegex (bytes raw)) as [[whole g]|] eqn:E;
    [exfalso|reflexivity].
  apply findSubmatch_sound in E as (p & s1 & s2 & Hraw & Hs1).
  apply inLang_jsonRegex in Hs1 as [x ->].
  rewrite Hraw in Hafter.
  destruct (cutBytes_fence_app p (x ++ fenceB ++ s2)%list) as [z Hz].
  simpl app in Hafter, Hz. rewrite <- !app_assoc in Hafter.
  simpl app in Hafter. rewrite Hz in Hafter. injection Hafter as <-.
  rewrite bytes_str in Hrest.
  pose proof (cutBytes_fence_none (z ++ x)%list s2) as Hne.
  rewrite <- app_assoc in Hne. simpl app in Hrest, Hne.
  now destruct (cutBytes fenceB (z ++ x ++ bq :: bq :: bq :: s2)%list).
Qed.

Lemma HasPrefix_fence_not_brace (t : string) :
  HasPrefix t fenceMark = true -> HasPrefix t "{" = false.
Proof.
  unfold HasPrefix. change (bytes fenceMark) with fenceB.
  change (bytes "{") with ["{"%char].
  destruct (bytes t) as [|c l]; [discriminate|]. simpl.
  destruct (Ascii.eqb_spec c bq) as [->|]; [reflexivity|discriminate].
Qed.

(** C3, as the code has it.  When a fence is opened and never closed (no
    fence marker follows the first one), the pattern does not match and
    the code falls back on the whole trimmed response: it is the
    candidate if it starts with an opening brace and ends with a closing
    brace, and otherwise there is no candidate and [ParseLLMResponse]
    returns the JSON-find error.  The latter is the case whenever the
    trimmed response starts with the fence. *)
Theorem open_fence_falls_back (raw rest : string) :
  After raw fenceMark = Some rest ->
  Contains rest fenceMark = false ->
  jsonCandidate raw
  = (if HasPrefix (TrimSpace raw) "{" && HasSuffix (TrimSpace raw) "}"
     then Some (TrimSpace (TrimSpace raw)) else None)
  /\ (HasPrefix (TrimSpace raw) fenceMark = true ->
      jsonCandidate raw = None
      /\ forall (jsonError : Type) json_Unmarshal,
           ParseLLMResponse jsonError json_Unmarshal raw
           = (zeroLLMResponse, Some ErrLLMResponseJSONFind)).
Proof.
  intros Hafter Hrest.
  assert (jsonCandidate raw
          = (if HasPrefix (TrimSpace raw) "{" && HasSuffix (TrimSpace raw) "}"
             then Some (TrimSpace (TrimSpace raw)) else None)) as Hc.
  { unfold jsonCandidate.
    rewrite (open_fence_no_match raw rest Hafter Hrest). simpl.
    now destruct (HasPrefix (TrimSpace raw) "{"
                  && HasSuffix (TrimSpace raw) "}"). }
  split; [exact Hc|].
  intros Hf. apply HasPrefix_fence_not_brace in Hf.
  rewrite Hf in Hc. simpl in Hc. split; [exact Hc|].
  intros jsonError json_Unmarshal. unfold ParseLLMResponse. now rewrite Hc.
Qed.

(** The test case "Malformed fence - missing closing backticks". *)
Lemma open_fence_falls_back_witness :
  jsonCandidate blobOpenFence = None.
Proof.
  apply (open_fence_falls_back blobOpenFence
           ("json" ++ newline ++ docFixBug) eq_refl eq_refl).
  reflexivity.
Defined.

Section Validation.

Variable jsonError : Type.
Variable json_Unmarshal :
  string -> LLMResponse -> LLMResponse * option jsonError.

(** C6.  When the candidate decodes without error into a record whose
    summary is empty, the error names summary, whatever the project name
    suggestion is (empty too, or not), and the decoded record is returned
    with it. *)
Theorem missing_summary_reported_first (raw jsonStr : string)
    (response : LLMResponse) :
  jsonCandidate raw = Some jsonStr ->
  json_Unmarshal jsonStr zeroLLMResponse = (response, None) ->
  Summary response = "" ->
  ParseLLMResponse jsonError json_Unmarshal raw
  = (response, Some (ErrLLMResponseMissingField "summary")).
Proof.
  intros Hc Hu Hs. unfold ParseLLMResponse. now rewrite Hc, Hu, Hs.
Qed.

(** C10.  A missing-field error comes with the record exactly as the
    decoder filled it; the JSON-find error and the unmarshal error come
    with the zero record, even where the decoder had written fields
    before it failed. *)
Theorem record_returned_with_error (raw : string) (r : LLMResponse) :
  (forall field,
     ParseLLMResponse jsonError json_Unmarshal raw
     = (r, Some (ErrLLMResponseMissingField field)) ->
     exists jsonStr,
       jsonCandidate raw = Some jsonStr
       /\ json_Unmarshal jsonStr zeroLLMResponse = (r, None))
  /\ (ParseLLMResponse jsonError json_Unmarshal raw
      = (r, Some ErrLLMResponseJSONFind) ->
      r = zeroLLMResponse /\ jsonCandidate raw = None)
  /\ (forall err,
        ParseLLMResponse jsonError json_Unmarshal raw
        = (r, Some (ErrLLMResponseJSONUnmarshal err)) ->
        r = zeroLLMResponse
        /\ exists jsonStr written,
             jsonCandidate raw = Some jsonStr
             /\ json_Unmarshal jsonStr zeroLLMResponse
                = (written, Some err)).
Proof.
  unfold ParseLLMResponse.
  destruct (jsonCandidate raw) as [jsonStr|].
  - destruct (json_Unmarshal jsonStr zeroLLMResponse) as [resp [e|]] eqn:Hu.
    + split; [intros field H; discriminate H|].
      split; [intros H; discriminate H|].
      intros err H. injection H as <- <-. split; [reflexivity|].
      now exists jsonStr, resp.
    + destruct (String.eqb (Summary resp) "");
        [|destruct (String.eqb (ProjectNameSuggestion resp) "")];
        (split; [|split; [intros H; discriminate H
                         |intros err H; discriminate H]]);
        intros field H; try discriminate H;
        injection H as <- _; now exists jsonStr.
  - split; [intros field H; discriminate H|].
    split; [|intros err H; discriminate H].
    intros H. now injection H as <-.
Qed.

End Validation.

Lemma missing_summary_reported_first_witness :
  ParseLLMResponse string sampleUnmarshal docDescriptionOnly
  = ({| Summary := ""; Description := "D"; ProjectNameSuggestion := "" |},
     Some (ErrLLMResponseMissingField "summary")).
Proof.
  apply (missing_summary_reported_first string sampleUnmarshal
           docDescriptionOnly docDescriptionOnly).
  - vm_compute. reflexivity.
  - vm_compute. reflexivity.
  - reflexivity.
Defined.

(** The record returned with the missing-field error of the test case
    "Invalid JSON - Missing Key" is the decoder's. *)
Lemma record_returned_with_error_witness :
  exists jsonStr,
    jsonCandidate docNoProject = Some jsonStr
    /\ sampleUnmarshal jsonStr zeroLLMResponse
       = ({| Summary := "S"; Description := "D";
             ProjectNameSuggestion := "" |}, None).
Proof.
  destruct (record_returned_with_error string sampleUnmarshal docNoProject
              {| Summary := "S"; Description := "D";
                 ProjectNameSuggestion := "" |}) as (H & _ & _).
  apply (H "project_name_suggestion"). vm_compute. reflexivity.
Defined.

(** The test case "Invalid JSON - Missing Key": the record comes back
    with the fields that were present. *)
Example missing_project_keeps_fields :
  ParseLLMResponse string sampleUnmarshal docNoProject
  = ({| Summary := "S"; Description := "D"; ProjectNameSuggestion := "" |},
     Some (ErrLLMResponseMissingField "project_name_suggestion")).
Proof. vm_compute. reflexivity. Qed.

(** The fence shapes of [TestParseLLMResponse], each around the same
    object: the tag in upper case, no tag, four backquotes, white space
    around the fences, white space inside the fences, text before and
    after the fences, and the bare object. *)
Example test_fence_shapes :
  map jsonCandidate
    [fence ++ "JSON" ++ newline ++ docFixBug ++ newline ++ fence;
     fence ++ newline ++ docFixBug ++ newline ++ fence;
     "`" ++ fence ++ "json" ++ newline ++ docFixBug ++ newline ++ fence
       ++ "`";
     "  " ++ newline ++ newline ++ " " ++ fence ++ "json" ++ newline
       ++ docFixBug ++ newline ++ fence ++ " " ++ newline ++ " ";
     fence ++ "json " ++ newline ++ " " ++ newline ++ " " ++ docFixBug
       ++ " " ++ newline ++ " " ++ newline ++ " " ++ fence;
     "Okay, here's the data:" ++ newline ++ fence ++ "json" ++ newline
       ++ docFixBug ++ newline ++ fence ++ newline ++ "Hope this helps!";
     " " ++ docFixBug ++ newline]
  = [Some docFixBug; Some docFixBug; Some docFixBug; Some docFixBug;
     Some docFixBug; Some docFixBug; Some docFixBug].
Proof. vm_compute. reflexivity. Qed.

(** The inputs of [TestParseLLMResponse] without an object: the empty
    string, plain text and a JSON string literal. *)
Example test_no_candidate :
  map jsonCandidate
    [""; "Just some random text without any JSON.";
     quote ++ "this is not a json object" ++ quote]
  = [None; None; None].
Proof. vm_compute. reflexivity. Qed.

(** The end-to-end example of the specification. *)
Example fix_bug_parses :
  ParseLLMResponse string sampleUnmarshal blobFixBug
  = ({| Summary := "Fix bug"; Description := "";
        ProjectNameSuggestion := "Web" |}, None).
Proof. vm_compute. reflexivity. Qed.

End LlmSpec.

(** ** The field path resolver *)

Module ResolverSpec.
Import GoStrings Mcpclient Reflect Cmd Samples StringFacts.
Local Open Scope string_scope.

Lemma splitBytes_cons (sep : ascii) (s : list ascii) :
  exists p ps, splitBytes sep s = p :: ps.
Proof.
  induction s as [|c s (p & ps & IH)]; simpl; [now exists [], []|].
  destruct (Ascii.eqb c sep); [now exists [], (splitBytes sep s)|].
  rewrite IH. now exists (c :: p), ps.
Qed.

(** [strings.Split] never returns an empty slice. *)
Lemma Split_cons (s : string) (sep : ascii) :
  exists p ps, Split s sep = p :: ps.
Proof.
  unfold Split. destruct (splitBytes_cons sep (bytes s)) as (p & ps & ->).
  now exists (str p), (map str ps).
Qed.

Section Resolver.

Variable EqualFold : string -> string -> bool.

Lemma getValueRecursive_valid (pathParts : list string) :
  forall (cur : value) (val : Value),
    getValueRecursive EqualFold (Some cur) pathParts = (val, true) ->
    exists v, val = Some v.
Proof.
  induction pathParts as [|part rest IH]; intros cur val H; simpl in H.
  - injection H as <-. now exists cur.
  - destruct (deref cur) as [[]|]; try discriminate H.
    + destruct (structLookup EqualFold fields part) as [[sf next]|];
        [|discriminate H].
      now apply IH in H.
    + destruct (mapLookup EqualFold entries part) as [next|];
        [|discriminate H].
      now apply IH in H.
Qed.

(** The found flag of [getValueByPath] is the one of the traversal. *)
Lemma getValueByPath_found (data : any) (path : string) :
  snd (getValueByPath EqualFold data path)
  = snd (getValueRecursive EqualFold data (Split path ".")).
Proof.
  unfold getValueByPath.
  destruct (getValueRecursive EqualFold data (Split path "."))
    as [val found] eqn:E.
  destruct found; [|now destruct val].
  destruct val as [v|]; [reflexivity|exfalso].
  destruct (Split_cons path ".") as (p & ps & Hs). rewrite Hs in E.
  destruct data as [cur|]; [|discriminate E].
  apply getValueRecursive_valid in E as [v E]. discriminate E.
Qed.

(** With the test data of [TestGetValueByPath] and its nil [Nested]
    pointer: the path that ends on the pointer is found, and its value is
    the nil pointer; the path that goes through it is not found. *)
Lemma nil_pointer_at_path_end_is_found :
  getValueByPath EqualFoldASCII (Some (testStruct None)) "Nested"
  = (Some (VPtr None), true)
  /\ getValueByPath EqualFoldASCII (Some (testStruct None)) "Nested.Value"
     = (None, false).
Proof. split; vm_compute; reflexivity. Qed.

(** C4, as the code has it.  When the path is exhausted the traversal
    reports found with the value it holds, whatever that value is; a nil
    pointer or interface stops the traversal with not-found only while a
    segment is left to resolve; [getValueByPath] passes the flag on.  So a
    path whose last segment selects a member holding a nil pointer or a
    nil interface is found: the result is the typed nil pointer, or nil. *)
Theorem path_end_is_found_whatever_the_value :
  (forall current : Value,
     getValueRecursive EqualFold current [] = (current, true))
  /\ (forall (cur : value) (part : string) (rest : list string),
        deref cur = None ->
        getValueRecursive EqualFold (Some cur) (part :: rest)
        = (None, false))
  /\ (forall (data : any) (path : string),
        snd (getValueByPath EqualFold data path)
        = snd (getValueRecursive EqualFold data (Split path ".")))
  /\ (forall (data : any) (path : string) (v : value),
        getValueRecursive EqualFold data (Split path ".") = (Some v, true) ->
        getValueByPath EqualFold data path = (Interface v, true))
  /\ (forall (cur : value) fields (part : string) sf (v : value),
        deref cur = Some (VStruct fields) ->
        Split part "." = [part] ->
        structLookup EqualFold fields part = Some (sf, v) ->
        getValueByPath EqualFold (Some cur) part = (Interface v, true)).
Proof.
  split; [reflexivity|]. split; [|split; [|split]].
  - intros cur part rest H. simpl. now rewrite H.
  - apply getValueByPath_found.
  - intros data path v H. unfold getValueByPath. now rewrite H.
  - intros cur fields part sf v Hd Hs Hl. unfold getValueByPath.
    rewrite Hs. simpl. now rewrite Hd, Hl.
Qed.

Lemma FieldByNameFunc_In (match_ : string -> bool)
    (fields : list (StructField * value)) (f : StructField * value) :
  FieldByNameFunc match_ fields = Some f ->
  In f fields /\ match_ (Name (fst f)) = true.
Proof.
  unfold FieldByNameFunc.
  destruct (List.filter (fun f => match_ (Name (fst f))) fields)
    as [|g [|? ?]] eqn:E; try discriminate.
  intros H. injection H as <-.
  apply (filter_In (fun f => match_ (Name (fst f))) g fields).
  rewrite E. now left.
Qed.

Lemma jsonTagLookup_Some (fields : list (StructField * value))
    (part : string) (f : StructField * value) :
  jsonTagLookup fields part = Some f ->
  In f fields
  /\ hd "" (Split (Tag_json (fst f)) ",") = part
  /\ Tag_json (fst f) <> "-".
Proof.
  induction fields as [|[sf fv] fields IH]; simpl; [discriminate|].
  destruct (String.eqb (hd "" (Split (Tag_json sf) ",")) part) eqn:E1;
    simpl; [|intros H; apply IH in H; tauto].
  destruct (String.eqb (Tag_json sf) "-") eqn:E2;
    simpl; [intros H; apply IH in H; tauto|].
  destruct (IsExported sf); [|intros H; apply IH in H; tauto].
  intros H. injection H as <-. simpl.
  apply String.eqb_eq in E1. apply String.eqb_neq in E2. auto.
Qed.

Lemma structLookup_Some (fields : list (StructField * value))
    (part : string) (f : StructField * value) :
  structLookup EqualFold fields part = Some f ->
  In f fields
  /\ Tag_json (fst f) <> "-"
  /\ (EqualFold (Name (fst f)) part = true
      \/ hd "" (Split (Tag_json (fst f)) ",") = part).
Proof.
  unfold structLookup.
  destruct (FieldByNameFunc (fun name => EqualFold name part) fields)
    as [[sf fv]|] eqn:E.
  - apply FieldByNameFunc_In in E as [Hin Hm]. simpl in Hm.
    destruct (IsExported sf); simpl.
    + destruct (String.eqb (Tag_json sf) "-") eqn:E2; simpl.
      * intros H. apply jsonTagLookup_Some in H. tauto.
      * intros H. injection H as <-. apply String.eqb_neq in E2. auto.
    + intros H. apply jsonTagLookup_Some in H. tauto.
  - intros H. apply jsonTagLookup_Some in H. tauto.
Qed.

(** C7.  The member a segment selects in a struct never carries the json
    tag ["-"], whether the segment matched its declared name or a json
    tag name; and when every member that the segment matches, by name
    under case folding or by tag name, carries that tag, the segment
    selects nothing and the path is not found. *)
Theorem excluded_member_never_resolved
    (fields : list (StructField * value)) (part : string) :
  (forall sf v,
     structLookup EqualFold fields part = Some (sf, v) ->
     In (sf, v) fields /\ Tag_json sf <> "-")
  /\ ((forall sf v,
         In (sf, v) fields ->
         EqualFold (Name sf) part = true
         \/ hd "" (Split (Tag_json sf) ",") = part ->
         Tag_json sf = "-") ->
      structLookup EqualFold fields part = None
      /\ (forall cur rest,
            deref cur = Some (VStruct fields) ->
            getValueRecursive EqualFold (Some cur) (part :: rest)
            = (None, false))
      /\ (forall cur path rest,
            deref cur = Some (VStruct fields) ->
            Split path "." = part :: rest ->
            getValueByPath EqualFold (Some cur) path = (None, false))).
Proof.
  split.
  - intros sf v H. apply structLookup_Some in H. simpl in H. tauto.
  - intros Hex.
    assert (structLookup EqualFold fields part = None) as Hnone.
    { destruct (structLookup EqualFold fields part) as [[sf v]|] eqn:E;
        [exfalso|reflexivity].
      apply structLookup_Some in E as (Hin & Hne & Hm). simpl in *.
      apply Hne. exact (Hex sf v Hin Hm). }
    split; [exact Hnone|]. split.
    + intros cur rest Hd. simpl. now rewrite Hd, Hnone.
    + intros cur path rest Hd Hs. unfold getValueByPath. rewrite Hs.
      simpl. now rewrite Hd, Hnone.
Qed.

End Resolver.

(** The member [Nested] of the test data, set to nil, at the end of a
    path. *)
Lemma path_end_is_found_whatever_the_value_witness :
  getValueByPath EqualFoldASCII (Some (testStruct None)) "Nested"
  = (Interface (VPtr None), true).
Proof.
  destruct (path_end_is_found_whatever_the_value EqualFoldASCII)
    as (_ & _ & _ & _ & H).
  apply (H (testStruct None) (testFields None) "Nested"
           (exported "Nested" "nested") (VPtr None)); reflexivity.
Defined.

(** The test case "Skipped JSON Tag": [SkipMe] is the only member the
    segment matches, and it carries the tag ["-"]. *)
Lemma excluded_member_never_resolved_witness :
  getValueByPath EqualFoldASCII (Some (testStruct (Some testNested)))
    "SkipMe"
  = (None, false).
Proof.
  destruct (excluded_member_never_resolved EqualFoldASCII
              (testFields (Some testNested)) "SkipMe") as [_ H].
  apply H with (rest := []).
  - intros sf v Hin Hm. simpl in Hin.
    destruct Hin as [E|[E|[E|[E|[E|[]]]]]]; injection E as <- <-;
      try reflexivity;
      destruct Hm as [Hm|Hm]; vm_compute in Hm; discriminate Hm.
  - reflexivity.
  - reflexivity.
Defined.

Section Concrete.

Variable EqualFold : string -> string -> bool.

Lemma concrete_deref (v : value) : concrete v = true -> deref v = Some v.
Proof. destruct v; simpl; intros H; try reflexivity; discriminate H. Qed.

Lemma concrete_member (fields : list (StructField * value))
    (f : StructField * value) :
  forallb (fun f => concrete (snd f)) fields = true ->
  In f fields -> concrete (snd f) = true.
Proof. intros H Hin. rewrite forallb_forall in H. now apply H. Qed.

(** From a value without references the traversal only reaches values
    without references. *)
Lemma getValueRecursive_concrete (pathParts : list string) :
  forall (cur : value) (val : Value),
    concrete cur = true ->
    getValueRecursive EqualFold (Some cur) pathParts = (val, true) ->
    exists v, val = Some v /\ concrete v = true.
Proof.
  induction pathParts as [|part rest IH]; intros cur val Hc H; simpl in H.
  - injection H as <-. now exists cur.
  - rewrite (concrete_deref cur Hc) in H.
    destruct cur; try discriminate H; try discriminate Hc.
    destruct (structLookup EqualFold fields part) as [[sf next]|] eqn:E;
      [|discriminate H].
    apply structLookup_Some in E as (Hin & _).
    apply (IH next); [|assumption].
    exact (concrete_member fields (sf, next) Hc Hin).
Qed.

(** The records of the search hold strings and structs of strings: a path
    that is found in one resolves to such a value, never to nil nor to a
    nil pointer. *)
Lemma issue_values_are_concrete (issue : Mcpclient.Issue) (path : string)
    (value : any) :
  getValueByPath EqualFold (Some (reflectIssue issue)) path = (value, true) ->
  exists v, value = Some v /\ concrete v = true.
Proof.
  unfold getValueByPath.
  destruct (getValueRecursive EqualFold (Some (reflectIssue issue))
              (Split path ".")) as [val found] eqn:E.
  destruct found; [|destruct val; discriminate].
  apply getValueRecursive_concrete in E as (v & -> & Hv); [|reflexivity].
  intros H. injection H as <-. exists v. split; [|assumption].
  destruct v; try reflexivity; discriminate Hv.
Qed.

End Concrete.

(** The cases of [TestGetValueByPath]. *)
Example test_getValueByPath_found :
  map (getValueByPath EqualFoldASCII (Some (testStruct (Some testNested))))
    ["Key"; "key"; "Nested.Value"; "nested.value"; "Map.mapKey1";
     "map.mapkey1"; "Map.nestedMap.innerKey"; "nested.nestedValue"; "NoTag"]
  = [(Some (VString "value1"), true); (Some (VString "value1"), true);
     (Some (VString "nestedValue1"), true);
     (Some (VString "nestedValue1"), true);
     (Some (VString "mapValue1"), true); (Some (VString "mapValue1"), true);
     (Some (VString "innerValue"), true);
     (Some (VString "nestedValue1"), true);
     (Some (VString "noTagValue"), true)].
Proof. vm_compute. reflexivity. Qed.

Example test_getValueByPath_not_found :
  map (getValueByPath EqualFoldASCII (Some (testStruct (Some testNested))))
    ["SkipMe"; "skipme"; "-"; "NonExistent"; "Nested.NonExistent";
     "Map.NonExistent"]
  = [(None, false); (None, false); (None, false); (None, false);
     (None, false); (None, false)].
Proof. vm_compute. reflexivity. Qed.

End ResolverSpec.

(** ** The search output *)

Module SearchSpec.
Import GoStrings Mcpclient Reflect Cmd Samples StringFacts ResolverSpec.
Local Open Scope string_scope.

Lemma ReplaceAll_removes (s : string) (old new : ascii) :
  old <> new -> ~ In old (bytes (ReplaceAll s old new)).
Proof.
  intros Hne. induction s as [|c s IH]; simpl; [tauto|].
  intros [H|H]; [|tauto].
  destruct (Ascii.eqb_spec c old); congruence.
Qed.

Lemma ReplaceAll_keeps_out (s : string) (old new c : ascii) :
  c <> new -> ~ In c (bytes s) -> ~ In c (bytes (ReplaceAll s old new)).
Proof.
  intros Hne. induction s as [|d s IH]; simpl; [tauto|].
  intros Hs [H|H]; [|tauto].
  destruct (Ascii.eqb_spec d old); [congruence|tauto].
Qed.

Lemma splitBytes_no_sep (sep : ascii) (s : list ascii) :
  ~ In sep s -> splitBytes sep s = [s].
Proof.
  induction s as [|c s IH]; simpl; [reflexivity|]. intros H.
  destruct (Ascii.eqb_spec c sep) as [->|_]; [tauto|].
  rewrite IH; tauto.
Qed.

Lemma splitBytes_app (sep : ascii) (a b : list ascii) :
  ~ In sep a ->
  splitBytes sep (a ++ sep :: b)%list = a :: splitBytes sep b.
Proof.
  induction a as [|c a IH]; simpl; intros H.
  - now rewrite Ascii.eqb_refl.
  - destruct (Ascii.eqb_spec c sep) as [->|_]; [tauto|].
    rewrite IH; tauto.
Qed.

(** Joining cells without tab with tabs and splitting the line at the
    tabs gives the cells back. *)
Lemma Split_Join (cells : list string) :
  cells <> [] -> Forall tabFree cells ->
  Split (Join cells tabS) tab = cells.
Proof.
  induction cells as [|c cells IH]; [congruence|]. intros _ Hall.
  inversion Hall as [|? ? Hc Hcells]; subst.
  destruct cells as [|d cells].
  - simpl. unfold Split. rewrite splitBytes_no_sep by assumption.
    simpl. now rewrite str_bytes.
  - change (Join (c :: d :: cells) tabS)
      with (c ++ tabS ++ Join (d :: cells) tabS).
    unfold Split. rewrite !bytes_app. change (bytes tabS) with [tab].
    simpl app. rewrite splitBytes_app by assumption.
    simpl map. rewrite str_bytes. f_equal.
    apply IH; [discriminate|assumption].
Qed.

Section Search.

Variable EqualFold : string -> string -> bool.
Variable Sprintf_v : value -> string.

Lemma tsvCell_tabFree (issue : any) (fieldPath : string) :
  tabFree (tsvCell EqualFold Sprintf_v issue fieldPath).
Proof.
  unfold tsvCell, tabFree.
  destruct (getValueByPath EqualFold issue fieldPath) as [[v|] []];
    simpl; try tauto.
  apply ReplaceAll_keeps_out; [discriminate|].
  apply ReplaceAll_keeps_out; [discriminate|].
  apply ReplaceAll_removes. discriminate.
Qed.

Lemma tsvRow_cells (fields : list string) (issue : Issue) :
  fields <> [] ->
  Split (tsvRow EqualFold Sprintf_v fields issue) tab
  = map (tsvCell EqualFold Sprintf_v (Some (reflectIssue issue))) fields.
Proof.
  intros Hne. unfold tsvRow. apply Split_Join.
  - destruct fields; [congruence|discriminate].
  - apply List.Forall_forall. intros c Hc. apply in_map_iff in Hc as (f & <- & _).
    apply tsvCell_tabFree.
Qed.

Lemma tsvFields_nonempty (outputFieldsStr : string) :
  tsvFields outputFieldsStr <> [].
Proof.
  unfold tsvFields.
  destruct (negb (String.eqb outputFieldsStr "")); [|discriminate].
  destruct (parseOutputFields outputFieldsStr); simpl; discriminate.
Qed.

(** C8.  In a tsv row, the cell of a selected path whose lookup reports
    not-found, or reports a nil value, is the empty string: splitting
    the row at the tabs gives the empty string at the position of the
    path. *)
Theorem absent_cell_is_empty (issue : Issue) (fields : list string)
    (i : nat) (fieldPath : string) :
  fields !! i = Some fieldPath ->
  snd (getValueByPath EqualFold (Some (reflectIssue issue)) fieldPath)
  = false
  \/ fst (getValueByPath EqualFold (Some (reflectIssue issue)) fieldPath)
     = None ->
  Split (tsvRow EqualFold Sprintf_v fields issue) tab !! i = Some "".
Proof.
  intros Hi Habsent.
  rewrite tsvRow_cells by (intros ->; discriminate Hi).
  change (map ?f fields) with (f <$> fields).
  rewrite list_lookup_fmap, Hi. simpl. f_equal.
  unfold tsvCell.
  destruct (getValueByPath EqualFold (Some (reflectIssue issue)) fieldPath)
    as [[v|] []]; simpl in Habsent; try reflexivity;
    destruct Habsent; discriminate.
Qed.

(** C9, as the code has it.  For a non-empty record collection the tsv
    output is the header, the selected paths joined by tabs, and one row
    per record; every row splits at the tabs into exactly one cell per
    selected path.  The header is written from the paths as they are: it
    splits into as many cells when no selected path holds a tab. *)
Theorem tsv_row_has_one_cell_per_field (outputFieldsStr : string)
    (issues : list Issue) :
  issues <> [] ->
  exists rows,
    searchTSV EqualFold Sprintf_v outputFieldsStr issues
    = Join (tsvFields outputFieldsStr) tabS :: rows
    /\ length rows = length issues
    /\ Forall
         (fun row =>
            length (Split row tab) = length (tsvFields outputFieldsStr))
         rows
    /\ (Forall tabFree (tsvFields outputFieldsStr) ->
        length (Split (Join (tsvFields outputFieldsStr) tabS) tab)
        = length (tsvFields outputFieldsStr)).
Proof.
  intros Hne. destruct issues as [|issue issues]; [congruence|].
  eexists. split; [reflexivity|]. split; [|split].
  - now rewrite length_map.
  - apply List.Forall_forall. intros row Hrow.
    apply in_map_iff in Hrow as (i & <- & _).
    rewrite tsvRow_cells by apply tsvFields_nonempty.
    apply length_map.
  - intros Hfree. rewrite Split_Join; [reflexivity| |assumption].
    apply tsvFields_nonempty.
Qed.

End Search.

Lemma absent_cell_is_empty_witness :
  Split (tsvRow EqualFoldASCII sampleSprintf ["key"; "nonExistentField"]
           issue1) tab !! 1 = Some "".
Proof.
  apply (absent_cell_is_empty EqualFoldASCII sampleSprintf issue1
           ["key"; "nonExistentField"] 1 "nonExistentField").
  - reflexivity.
  - left. vm_compute. reflexivity.
Defined.

(** A selected path that holds a tab: the header splits into two cells,
    the row of the record into one. *)
Lemma header_with_tab_has_more_cells :
  let outputFieldsStr := "key" ++ tabS ++ "id" in
  tsvFields outputFieldsStr = [outputFieldsStr]
  /\ searchTSV EqualFoldASCII sampleSprintf outputFieldsStr [issue1]
     = [outputFieldsStr; ""]
  /\ length (Split outputFieldsStr tab) = 2
  /\ length (Split "" tab) = 1.
Proof. repeat split; vm_compute; reflexivity. Qed.

Lemma tsv_row_has_one_cell_per_field_witness :
  exists rows,
    searchTSV EqualFoldASCII sampleSprintf "key, fields.description"
      [issue1; issue2]
    = Join (tsvFields "key, fields.description") tabS :: rows
    /\ length rows = 2
    /\ Forall
         (fun row =>
            length (Split row tab)
            = length (tsvFields "key, fields.description"))
         rows
    /\ (Forall tabFree (tsvFields "key, fields.description") ->
        length (Split (Join (tsvFields "key, fields.description") tabS) tab)
        = length (tsvFields "key, fields.description")).
Proof.
  apply (tsv_row_has_one_cell_per_field EqualFoldASCII sampleSprintf
           "key, fields.description" [issue1; issue2]).
  discriminate.
Defined.

(** The tsv tests of the repository. *)
Example test_tsv_default :
  searchTSV EqualFoldASCII sampleSprintf "" [issue1; issue2]
  = [Join ["key"; "fields.summary"; "fields.status.name";
           "fields.issuetype.name"] tabS;
     Join ["TEST-1"; "Found issue 1 with details"; "Open"; "Bug"] tabS;
     Join ["TEST-2"; "Found issue 2"; "In Progress"; "Task"] tabS].
Proof. vm_compute. reflexivity. Qed.

Example test_tsv_fields :
  searchTSV EqualFoldASCII sampleSprintf
    "key, fields.description, fields.status.name" [issue1; issue2]
  = [Join ["key"; "fields.description"; "fields.status.name"] tabS;
     Join ["TEST-1"; "This is the first test issue."; "Open"] tabS;
     Join ["TEST-2"; "Second issue with newline."; "In Progress"] tabS].
Proof. vm_compute. reflexivity. Qed.

#[local] Instance stringLe_total : Total stringLe.
Proof. intros s1 s2. apply String.leb_total. Qed.

Section Projection.

Variable EqualFold : string -> string -> bool.

(** One step of the loop of [extractFields] stores [projected]. *)
Lemma extractFields_step (issue : Issue) (result : gmap string any)
    (fieldPath : string) :
  match getValueByPath EqualFold (Some (reflectIssue issue)) fieldPath with
  | (value, true) => <[fieldPath := value]> result
  | (_, false) => <[fieldPath := None]> result
  end
  = <[fieldPath := projected EqualFold issue fieldPath]> result.
Proof.
  unfold projected.
  now destruct (getValueByPath EqualFold (Some (reflectIssue issue)) fieldPath)
    as [value []].
Qed.

Lemma extractFields_foldl (issue : Issue) (fields : list string) :
  forall (result : gmap string any) (p : string),
    foldl
      (fun result fieldPath =>
         match getValueByPath EqualFold (Some (reflectIssue issue)) fieldPath
         with
         | (value, true) => <[fieldPath := value]> result
         | (_, false) => <[fieldPath := None]> result
         end)
      result fields !! p
    = if decide (p ∈ fields) then Some (projected EqualFold issue p)
      else result !! p.
Proof.
  induction fields as [|q fields IH]; intros result p; cbn [foldl].
  - rewrite decide_False; [reflexivity|]. apply not_elem_of_nil.
  - rewrite IH, extractFields_step.
    destruct (decide (p ∈ fields)) as [Hin|Hnin].
    + rewrite decide_True; [reflexivity|]. now apply elem_of_cons; right.
    + destruct (decide (p = q)) as [->|Hne].
      * rewrite lookup_insert_eq.
        rewrite decide_True; [reflexivity|]. now apply elem_of_cons; left.
      * rewrite lookup_insert_ne by congruence.
        rewrite decide_False; [reflexivity|].
        intros H. apply elem_of_cons in H as [H|H]; contradiction.
Qed.

(** The entries of the map: one for every requested path, none else. *)
Lemma extractFields_lookup (issue : Issue) (fields : list string)
    (p : string) :
  extractFields EqualFold issue fields !! p
  = if decide (p ∈ fields) then Some (projected EqualFold issue p)
    else None.
Proof.
  unfold extractFields. rewrite extractFields_foldl.
  now rewrite lookup_empty.
Qed.

Lemma jsonObjectKeys_elem (m : gmap string any) (p : string) :
  p ∈ jsonObjectKeys m <-> is_Some (m !! p).
Proof.
  unfold jsonObjectKeys. rewrite merge_sort_Permutation.
  rewrite list_elem_of_fmap. split.
  - intros ([k v] & -> & H). apply elem_of_map_to_list in H. now exists v.
  - intros [v H]. exists (p, v). split; [reflexivity|].
    now apply elem_of_map_to_list.
Qed.

(** C1, as the code has it.  The projection is a Go map: it holds one
    entry for every distinct requested path (the value found, or nil) and
    nothing else, and it keeps no order, so two requests with the same
    paths in another order (or with repetitions) give the same map, and
    with it the same JSON and YAML text.  The JSON encoding lists the
    entries by key in byte order, each requested path once. *)
Theorem projection_is_an_unordered_map (issue : Issue)
    (fields : list string) :
  (forall p,
     extractFields EqualFold issue fields !! p
     = if decide (p ∈ fields) then Some (projected EqualFold issue p)
       else None)
  /\ (forall fields',
        (forall p, p ∈ fields <-> p ∈ fields') ->
        extractFields EqualFold issue fields
        = extractFields EqualFold issue fields')
  /\ Sorted stringLe (jsonObjectKeys (extractFields EqualFold issue fields))
  /\ NoDup (jsonObjectKeys (extractFields EqualFold issue fields))
  /\ (forall p,
        p ∈ jsonObjectKeys (extractFields EqualFold issue fields)
        <-> p ∈ fields).
Proof.
  split; [apply extractFields_lookup|]. split; [|split; [|split]].
  - intros fields' Hsame. apply map_eq. intros p.
    rewrite !extractFields_lookup.
    destruct (decide (p ∈ fields)) as [H|H].
    + rewrite decide_True; [reflexivity|]. now apply Hsame.
    + rewrite decide_False; [reflexivity|]. now rewrite <- Hsame.
  - unfold jsonObjectKeys. apply (Sorted_merge_sort stringLe).
  - unfold jsonObjectKeys. rewrite merge_sort_Permutation.
    apply NoDup_fst_map_to_list.
  - intros p. rewrite jsonObjectKeys_elem, extractFields_lookup.
    case_decide as H; split; intros H'.
    + assumption.
    + now eexists.
    + now destruct H' as [? ?].
    + contradiction.
Qed.

End Projection.

(** The same paths in another order and with a repetition. *)
Lemma projection_is_an_unordered_map_witness :
  extractFields EqualFoldASCII issue1 ["key"; "id"]
  = extractFields EqualFoldASCII issue1 ["id"; "key"; "id"].
Proof.
  destruct (projection_is_an_unordered_map EqualFoldASCII issue1
              ["key"; "id"]) as (_ & H & _).
  apply H. intros p. rewrite !elem_of_cons. tauto.
Defined.

(** Requesting key before id: the map is the one of the request id
    before key, and its JSON encoding lists id first. *)
Lemma projection_ignores_request_order :
  jsonObjectKeys (extractFields EqualFoldASCII issue1 ["key"; "id"])
  = ["id"; "key"]
  /\ extractFields EqualFoldASCII issue1 ["key"; "id"]
     = extractFields EqualFoldASCII issue1 ["id"; "key"].
Proof.
  split; [vm_compute; reflexivity|].
  apply map_eq. intros p. rewrite !extractFields_lookup.
  destruct (decide (p ∈ ["key"; "id"])) as [H|H].
  - rewrite decide_True; [reflexivity|].
    rewrite !elem_of_cons in *. tauto.
  - rewrite decide_False; [reflexivity|].
    rewrite !elem_of_cons in *. tauto.
Qed.

(** The test of the filtered JSON output: two records over four paths,
    one of them unknown. *)
Example test_json_fields :
  let fields :=
    parseOutputFields
      "key, fields.summary, fields.status.name, nonExistentField" in
  map (fun m => map (fun p => m !! p) fields)
    (filteredIssues EqualFoldASCII fields [issue1; issue2])
  = [[Some (Some (VString "TEST-1"));
      Some (Some (VString "Found issue 1 with details"));
      Some (Some (VString "Open")); Some None];
     [Some (Some (VString "TEST-2")); Some (Some (VString "Found issue 2"));
      Some (Some (VString "In Progress")); Some None]].
Proof. vm_compute. reflexivity. Qed.

End SearchSpec.

(** * Further properties *)

(** ** TrimSpace *)

Module TrimFacts.
Import GoStrings Extra StringFacts.

Lemma list_strong_ind (P : list ascii -> Prop) :
  (forall s, (forall t, length t < length s -> P t) -> P s) ->
  forall s, P s.
Proof.
  intros step s. remember (length s) as n eqn:Hn. revert s Hn.
  induction n as [n IH] using lt_wf_ind. intros s ->.
  apply step. intros t Ht. now apply (IH (length t)).
Qed.

(** Each scan drops a prefix of what it is given. *)
Lemma trimLeftSpace_suffix (s : list ascii) :
  exists p, s = p ++ trimLeftSpace s.
Proof.
  induction s as [s IH] using list_strong_ind.
  destruct s as [|c s1]; [now exists []|]. cbn [trimLeftSpace].
  destruct (asciiSpace c).
  { destruct (IH s1) as [p Hp]; [simpl; lia|]. exists (c :: p).
    simpl. now rewrite <- Hp. }
  destruct s1 as [|d s2]; [now exists []|].
  destruct (spaceRune2 c d).
  { destruct (IH s2) as [p Hp]; [simpl; lia|]. exists (c :: d :: p).
    simpl. now rewrite <- Hp. }
  destruct s2 as [|e s3]; [now exists []|].
  destruct (spaceRune3 c d e); [|now exists []].
  destruct (IH s3) as [p Hp]; [simpl; lia|]. exists (c :: d :: e :: p).
  simpl. now rewrite <- Hp.
Qed.

Lemma trimRevSpace_suffix (r : list ascii) :
  exists p, r = p ++ trimRevSpace r.
Proof.
  induction r as [r IH] using list_strong_ind.
  destruct r as [|c r1]; [now exists []|]. cbn [trimRevSpace].
  destruct (asciiSpace c).
  { destruct (IH r1) as [p Hp]; [simpl; lia|]. exists (c :: p).
    simpl. now rewrite <- Hp. }
  destruct r1 as [|d r2]; [now exists []|].
  destruct (spaceRune2 d c).
  { destruct (IH r2) as [p Hp]; [simpl; lia|]. exists (c :: d :: p).
    simpl. now rewrite <- Hp. }
  destruct r2 as [|e r3]; [now exists []|].
  destruct (spaceRune3 e d c); [|now exists []].
  destruct (IH r3) as [p Hp]; [simpl; lia|]. exists (c :: d :: e :: p).
  simpl. now rewrite <- Hp.
Qed.

Lemma trimRightSpace_prefix (s : list ascii) :
  exists q, s = trimRightSpace s ++ q.
Proof.
  unfold trimRightSpace. destruct (trimRevSpace_suffix (rev s)) as [p Hp].
  exists (rev p). rewrite <- rev_app_distr, <- Hp. now rewrite rev_involutive.
Qed.

(** The trimmed text is a piece of the text. *)
Lemma trimSpaceBytes_infix (s : list ascii) :
  exists p q, s = p ++ trimSpaceBytes s ++ q.
Proof.
  unfold trimSpaceBytes.
  destruct (trimLeftSpace_suffix s) as [p Hp].
  destruct (trimRightSpace_prefix (trimLeftSpace s)) as [q Hq].
  exists p, q. now rewrite <- Hq.
Qed.

Lemma trimSpaceBytes_In (s : list ascii) (c : ascii) :
  In c (trimSpaceBytes s) -> In c s.
Proof.
  destruct (trimSpaceBytes_infix s) as (p & q & Hs). intros H.
  rewrite Hs. apply in_or_app. right. apply in_or_app. now left.
Qed.

(** Where each scan stops. *)
Lemma trimLeftSpace_stops (s : list ascii) :
  startsSpace (trimLeftSpace s) = false.
Proof.
  induction s as [s IH] using list_strong_ind.
  destruct s as [|c s1]; [reflexivity|]. cbn [trimLeftSpace].
  destruct (asciiSpace c) eqn:E1; [apply IH; simpl; lia|].
  destruct s1 as [|d s2]; [simpl; now rewrite E1|].
  destruct (spaceRune2 c d) eqn:E2; [apply IH; simpl; lia|].
  destruct s2 as [|e s3]; [simpl; now rewrite E1, E2|].
  destruct (spaceRune3 c d e) eqn:E3; [apply IH; simpl; lia|].
  simpl. now rewrite E1, E2, E3.
Qed.

Lemma trimRevSpace_stops (r : list ascii) :
  endsSpaceRev (trimRevSpace r) = false.
Proof.
  induction r as [r IH] using list_strong_ind.
  destruct r as [|c r1]; [reflexivity|]. cbn [trimRevSpace].
  destruct (asciiSpace c) eqn:E1; [apply IH; simpl; lia|].
  destruct r1 as [|d r2]; [simpl; now rewrite E1|].
  destruct (spaceRune2 d c) eqn:E2; [apply IH; simpl; lia|].
  destruct r2 as [|e r3]; [simpl; now rewrite E1, E2|].
  destruct (spaceRune3 e d c) eqn:E3; [apply IH; simpl; lia|].
  simpl. now rewrite E1, E2, E3.
Qed.

(** Case analysis on the tests of a scan at the head of a text. *)
Ltac stop_cases H :=
  cbn [startsSpace endsSpaceRev trimLeftSpace trimRevSpace app] in *;
  repeat match goal with
         | |- context [asciiSpace ?c] => destruct (asciiSpace c)
         | |- context [spaceRune2 ?c ?d] => destruct (spaceRune2 c d)
         | |- context [spaceRune3 ?c ?d ?e] => destruct (spaceRune3 c d e)
         end;
  simpl in H; try discriminate H; try reflexivity.

Lemma trimLeftSpace_fixed (s : list ascii) :
  startsSpace s = false -> trimLeftSpace s = s.
Proof.
  destruct s as [|c [|d [|e s3]]]; intros H; stop_cases H.
Qed.

Lemma trimRevSpace_fixed (r : list ascii) :
  endsSpaceRev r = false -> trimRevSpace r = r.
Proof.
  destruct r as [|c [|d [|e r3]]]; intros H; stop_cases H.
Qed.

(** A prefix of a text that starts with no white-space rune starts with
    none. *)
Lemma startsSpace_prefix (x y : list ascii) :
  startsSpace (x ++ y) = false -> startsSpace x = false.
Proof.
  destruct x as [|c [|d [|e x]]]; intros H;
    [reflexivity|destruct y as [|d [|e y]]|destruct y as [|e y]|];
    stop_cases H.
Qed.

Lemma trimSpaceBytes_fixed (s : list ascii) :
  trimSpaceBytes (trimSpaceBytes s) = trimSpaceBytes s.
Proof.
  unfold trimSpaceBytes at 2 3. unfold trimRightSpace.
  set (t := trimLeftSpace s).
  set (r := trimRevSpace (rev t)).
  assert (startsSpace (rev r) = false) as Hstart.
  { destruct (trimRevSpace_suffix (rev t)) as [p Hp]. fold r in Hp.
    apply (startsSpace_prefix (rev r) (rev p)).
    rewrite <- rev_app_distr, <- Hp, rev_involutive.
    apply trimLeftSpace_stops. }
  unfold trimSpaceBytes, trimRightSpace.
  rewrite (trimLeftSpace_fixed _ Hstart), rev_involutive.
  rewrite (trimRevSpace_fixed r); [reflexivity|].
  apply trimRevSpace_stops.
Qed.

(** Trimming twice is trimming once. *)
Lemma TrimSpace_idempotent (s : string) :
  TrimSpace (TrimSpace s) = TrimSpace s.
Proof.
  unfold TrimSpace. now rewrite bytes_str, trimSpaceBytes_fixed.
Qed.

(** A text of ASCII white space trims to the empty text. *)
Lemma trimSpaceBytes_blank (s : list ascii) :
  forallb asciiSpace s = true -> trimSpaceBytes s = [].
Proof.
  intros H. unfold trimSpaceBytes.
  rewrite <- (app_nil_r s), trimLeftSpace_spaces by assumption.
  reflexivity.
Qed.

End TrimFacts.

(** ** ParseLLMResponse: the candidate and the outcomes *)

Module ParserExtra.
Import GoStrings GoRegexp Llm Extra Samples.
Import StringFacts RegexpFacts FenceFacts TrimFacts.

(** Soundness of the matcher with the capture: the capture handed on is
    the one received, or a text of a group of the pattern. *)
Lemma rmatch_sound_cap (r : regex) :
  forall {R : Type} (s : list ascii) (cap : option (list ascii))
         (k : list ascii -> option (list ascii) -> option R) (x : R),
    rmatch r s cap k = Some x ->
    exists s1 s2 cap',
      s = s1 ++ s2 /\ inLang r s1 /\ k s2 cap' = Some x
      /\ (cap' = cap \/ exists g, cap' = Some g /\ groupLang r g).
Proof.
  induction r as [p|r1 IH1 r2 IH2|r1 IH1|p|r1 IH1]; intros R s cap k x H;
    simpl in H.
  - destruct s as [|c s]; [discriminate|].
    destruct (p c) eqn:Hc; [|discriminate].
    exists [c], s, cap. repeat split; [|assumption|now left]. now exists c.
  - apply IH1 in H as (a & s' & cap1 & -> & Ha & H & Hc1).
    apply IH2 in H as (b & s2 & cap2 & -> & Hb & H & Hc2).
    exists (a ++ b), s2, cap2. rewrite <- app_assoc.
    repeat split; [now exists a, b|assumption|].
    destruct Hc2 as [->|(g & -> & Hg)].
    + destruct Hc1 as [->|(g & -> & Hg)]; [now left|].
      right. exists g. simpl. auto.
    + right. exists g. simpl. auto.
  - destruct (rmatch r1 s cap k) as [y|] eqn:E.
    + injection H as ->.
      apply IH1 in E as (s1 & s2 & cap' & -> & H1 & H2 & Hc).
      exists s1, s2, cap'. repeat split; [now right|assumption|exact Hc].
    + exists [], s, cap. repeat split; [now left|assumption|now left].
  - apply starByte_sound in H as (s1 & s2 & -> & H1 & H2).
    exists s1, s2, cap. repeat split; [assumption|assumption|now left].
  - apply rmatch_sound in H as (s1 & s2 & _ & -> & H1 & H2).
    rewrite firstn_length_diff in H2.
    exists s1, s2, (Some s1). repeat split; [assumption|assumption|].
    right. now exists s1.
Qed.

(** A pattern without group hands the capture on. *)
Lemma rmatch_sound_nogroup (r : regex) {R : Type} (s : list ascii)
    (cap : option (list ascii))
    (k : list ascii -> option (list ascii) -> option R) (x : R) :
  (forall g, ~ groupLang r g) ->
  rmatch r s cap k = Some x ->
  exists s1 s2, s = s1 ++ s2 /\ inLang r s1 /\ k s2 cap = Some x.
Proof.
  intros Hno H.
  apply rmatch_sound_cap in H as (s1 & s2 & cap' & Hs & H1 & H2 & Hc).
  destruct Hc as [->|(g & _ & Hg)]; [now exists s1, s2|].
  now destruct (Hno g).
Qed.

Lemma rmatch_Group_sound (r1 : regex) {R : Type} (s : list ascii)
    (cap : option (list ascii))
    (k : list ascii -> option (list ascii) -> option R) (x : R) :
  rmatch (Group r1) s cap k = Some x ->
  exists g s2, s = g ++ s2 /\ inLang r1 g /\ k s2 (Some g) = Some x.
Proof.
  intros H. cbn [rmatch] in H.
  apply rmatch_sound in H as (g & s2 & _ & -> & Hg & H).
  rewrite firstn_length_diff in H. now exists g, s2.
Qed.

Lemma inLang_object (o : list ascii) :
  inLang (Seq (lit "{") (Seq (StarByte reAny) (lit "}"))) o ->
  exists m, o = "{" :: m ++ ["}"].
Proof.
  intros (a & b & -> & (c & -> & Hc) & m & b' & -> & _ & d & -> & Hd).
  apply Ascii.eqb_eq in Hc, Hd. subst. now exists m.
Qed.

(** What the group captures is an object: it starts with an opening
    brace and ends with a closing brace. *)
Lemma matchHere_capture (s whole g : list ascii) :
  matchHere jsonRegex s = Some (whole, g) ->
  exists m, g = "{" :: m ++ ["}"].
Proof.
  unfold matchHere, jsonRegex. cbn [rmatch]. intros H.
  apply rmatch_sound_nogroup in H as (a1 & s1 & E1 & L1 & H);
    [|simpl; tauto].
  apply rmatch_sound_nogroup in H as (a2 & s2 & E2 & L2 & H);
    [|simpl; tauto].
  apply rmatch_sound_nogroup in H as (a3 & s3 & E3 & L3 & H);
    [|simpl; tauto].
  unfold object in H.
  apply rmatch_Group_sound in H as (o & s4 & E4 & Ho & H).
  apply rmatch_sound_nogroup in H as (a5 & s5 & E5 & L5 & H);
    [|simpl; tauto].
  apply rmatch_sound_nogroup in H as (a6 & s6 & E6 & L6 & H);
    [|simpl; tauto].
  injection H as _ <-. now apply inLang_object.
Qed.

Lemma findSubmatch_matchHere (r : regex) (s : list ascii)
    (m : list ascii * list ascii) :
  findSubmatch r s = Some m ->
  exists pre s', s = pre ++ s' /\ matchHere r s' = Some m.
Proof.
  induction s as [|c s IH]; simpl.
  - destruct (matchHere r []) eqn:E; [|discriminate].
    intros H. injection H as <-. now exists [], [].
  - destruct (matchHere r (c :: s)) eqn:E.
    + intros H. injection H as <-. now exists [], (c :: s).
    + intros H. apply IH in H as (pre & s' & -> & H).
      now exists (c :: pre), s'.
Qed.

Lemma braces_shape (l : list ascii) :
  hasPrefixBytes l ["{"] = true -> hasPrefixBytes (rev l) ["}"] = true ->
  exists m, l = "{" :: m ++ ["}"].
Proof.
  destruct l as [|c l]; [discriminate|]. simpl hasPrefixBytes at 1.
  rewrite andb_true_r. intros Hc. apply Ascii.eqb_eq in Hc. subst c.
  destruct (rev ("{" :: l)) as [|d r] eqn:E; [discriminate|].
  simpl. rewrite andb_true_r. intros Hd. apply Ascii.eqb_eq in Hd. subst d.
  apply (f_equal (@rev ascii)) in E. rewrite rev_involutive in E.
  simpl in E. destruct (rev r) as [|e m] eqn:Er.
  - discriminate E.
  - injection E as <- ->. now exists m.
Qed.

Lemma trimSpaceBytes_object (m : list ascii) :
  trimSpaceBytes ("{" :: m ++ ["}"]) = "{" :: m ++ ["}"].
Proof.
  exact (trimSpaceBytes_padded [] [] m "{" "}" eq_refl eq_refl
           plain_open plain_close).
Qed.

(** The candidate, when there is one, is an object text. *)
Lemma jsonCandidate_shape (raw c : string) :
  jsonCandidate raw = Some c ->
  exists m, bytes c = "{" :: m ++ ["}"].
Proof.
  unfold jsonCandidate, FindStringSubmatch.
  destruct (findSubmatch jsonRegex (bytes raw)) as [[whole g]|] eqn:E.
  - cbn [length Nat.eqb nth]. intros H. injection H as <-.
    apply findSubmatch_matchHere in E as (pre & s' & _ & E).
    apply matchHere_capture in E as [m ->].
    exists m. unfold TrimSpace. now rewrite !bytes_str, trimSpaceBytes_object.
  - cbn [length Nat.eqb].
    destruct (HasPrefix (TrimSpace raw) "{") eqn:Hp; [|discriminate].
    destruct (HasSuffix (TrimSpace raw) "}") eqn:Hs; [|discriminate].
    simpl. intros H. injection H as <-.
    destruct (braces_shape _ Hp Hs) as [m Hm]. exists m.
    unfold TrimSpace at 1. now rewrite Hm, bytes_str, trimSpaceBytes_object.
Qed.

Local Open Scope string_scope.

(** A text between braces starts and ends with them, and is trimmed. *)
Lemma object_trimmed (c : string) (m : list ascii) :
  bytes c = ("{"%char :: m ++ ["}"%char])%list ->
  HasPrefix c "{" = true /\ HasSuffix c "}" = true /\ TrimSpace c = c.
Proof.
  intros Hm. unfold HasPrefix, HasSuffix, TrimSpace. rewrite Hm.
  split; [reflexivity|]. split.
  - change ("{"%char :: m ++ ["}"%char])%list
      with (("{"%char :: m) ++ ["}"%char])%list.
    now rewrite rev_app_distr.
  - now rewrite trimSpaceBytes_object, <- Hm, str_bytes.
Qed.

(** X1.  Whatever the response, a candidate handed to the decoder starts
    with an opening brace, ends with a closing brace and has no white
    space around it: trimming it changes nothing. *)
Theorem candidate_is_a_trimmed_object (raw c : string) :
  jsonCandidate raw = Some c ->
  HasPrefix c "{" = true /\ HasSuffix c "}" = true /\ TrimSpace c = c.
Proof.
  intros H. apply jsonCandidate_shape in H as [m Hm].
  exact (object_trimmed c m Hm).
Qed.

Lemma candidate_is_a_trimmed_object_witness :
  HasPrefix spanTwoBlocks "{" = true /\ HasSuffix spanTwoBlocks "}" = true
  /\ TrimSpace spanTwoBlocks = spanTwoBlocks.
Proof.
  apply (candidate_is_a_trimmed_object blobTwoBlocks spanTwoBlocks).
  vm_compute. reflexivity.
Defined.

(** X2.  The result of [ParseLLMResponse] depends on the decoder only
    through what it does on trimmed texts between braces: two decoders
    that agree on those give the same result on every response. *)
Theorem decoder_is_only_given_objects (jsonError : Type)
    (u u' : string -> LLMResponse -> LLMResponse * option jsonError)
    (raw : string) :
  (forall c r,
     HasPrefix c "{" = true -> HasSuffix c "}" = true -> TrimSpace c = c ->
     u c r = u' c r) ->
  ParseLLMResponse jsonError u raw = ParseLLMResponse jsonError u' raw.
Proof.
  intros Hagree. unfold ParseLLMResponse.
  destruct (jsonCandidate raw) as [c|] eqn:E; [|reflexivity].
  destruct (jsonCandidate_shape raw c E) as [m Hm].
  destruct (object_trimmed c m Hm) as (Hp & Hs & Ht).
  now rewrite (Hagree c zeroLLMResponse Hp Hs Ht).
Qed.

Lemma contains_byte (s : string) (c : ascii) :
  Contains s (String c "") = false -> ~ In c (bytes s).
Proof.
  unfold Contains. change (bytes (String c "")) with [c].
  induction (bytes s) as [|d l IH]; [tauto|]. cbn [cutBytes hasPrefixBytes].
  rewrite andb_true_r.
  destruct (Ascii.eqb_spec d c) as [->|Hne]; [discriminate|].
  intros H [Hd|Hin]; [contradiction|]. now apply IH.
Qed.

Lemma inLang_jsonRegex_braces (s : list ascii) :
  inLang jsonRegex s -> In "{"%char s /\ In "}"%char s.
Proof.
  intros (f & b1 & -> & _ & tg & b2 & -> & _ & w & b3 & -> & _
          & o & b4 & -> & Ho & _).
  apply inLang_object in Ho as [m ->].
  split; do 3 (apply in_or_app; right); apply in_or_app; left.
  - now left.
  - right. apply in_or_app. right. now left.
Qed.

Lemma hasPrefix_byte_In (l : list ascii) (c : ascii) :
  hasPrefixBytes l [c] = true -> In c l.
Proof.
  destruct l as [|d l]; [discriminate|]. simpl. rewrite andb_true_r.
  intros H. apply Ascii.eqb_eq in H. now left.
Qed.

(** X3.  A response without an opening brace, or without a closing
    brace, has no candidate: [ParseLLMResponse] returns the zero record
    and the JSON-find error, and the decoder is not consulted. *)
Theorem no_brace_no_candidate (raw : string) :
  Contains raw "{" = false \/ Contains raw "}" = false ->
  jsonCandidate raw = None
  /\ forall (jsonError : Type) json_Unmarshal,
       ParseLLMResponse jsonError json_Unmarshal raw
       = (zeroLLMResponse, Some ErrLLMResponseJSONFind).
Proof.
  intros Hno.
  assert (jsonCandidate raw = None) as Hc.
  { assert (~ (In "{"%char (bytes raw) /\ In "}"%char (bytes raw))) as Hnot.
    { intros [H1 H2]. destruct Hno as [H|H]; apply contains_byte in H;
        contradiction. }
    unfold jsonCandidate, FindStringSubmatch.
    destruct (findSubmatch jsonRegex (bytes raw)) as [[whole g]|] eqn:E.
    - exfalso. apply Hnot.
      apply findSubmatch_sound in E as (p & s1 & s2 & -> & Hs1).
      apply inLang_jsonRegex_braces in Hs1 as [H1 H2].
      split; apply in_or_app; right; apply in_or_app; now left.
    - cbn [length Nat.eqb].
      destruct (HasPrefix (TrimSpace raw) "{") eqn:Hp; [|reflexivity].
      destruct (HasSuffix (TrimSpace raw) "}") eqn:Hs; [|reflexivity].
      exfalso. apply Hnot. unfold HasPrefix, HasSuffix, TrimSpace in Hp, Hs.
      rewrite bytes_str in Hp, Hs.
      apply hasPrefix_byte_In in Hp. apply hasPrefix_byte_In in Hs.
      apply in_rev in Hs.
      split; now apply trimSpaceBytes_In. }
  split; [exact Hc|]. intros jsonError u. unfold ParseLLMResponse.
  now rewrite Hc.
Qed.

(** The test case "No JSON object found". *)
Lemma no_brace_no_candidate_witness :
  jsonCandidate "Just some random text without any JSON." = None.
Proof.
  apply (no_brace_no_candidate "Just some random text without any JSON.").
  left. reflexivity.
Defined.

(** X4.  A response without fence marker is judged as a whole: the
    trimmed response is the candidate when it starts with an opening
    brace and ends with a closing brace, and there is no candidate
    otherwise.  So a bare object is accepted with any white space around
    it, and text before or after a bare object is not tolerated. *)
Theorem no_fence_candidate (raw : string) :
  Contains raw fenceMark = false ->
  jsonCandidate raw
  = if HasPrefix (TrimSpace raw) "{" && HasSuffix (TrimSpace raw) "}"
    then Some (TrimSpace raw) else None.
Proof.
  intros Hno. apply Contains_false in Hno.
  unfold jsonCandidate, FindStringSubmatch.
  destruct (findSubmatch jsonRegex (bytes raw)) as [[whole g]|] eqn:E.
  - exfalso. apply findSubmatch_sound in E as (p & s1 & s2 & Hraw & Hs1).
    apply LlmSpec.inLang_jsonRegex in Hs1 as [x ->].
    rewrite Hraw in Hno. simpl app in Hno.
    rewrite <- !app_assoc in Hno. simpl app in Hno.
    exact (cutBytes_fence_none p _ Hno).
  - cbn [length Nat.eqb].
    destruct (HasPrefix (TrimSpace raw) "{" && HasSuffix (TrimSpace raw) "}");
      [|reflexivity].
    now rewrite TrimSpace_idempotent.
Qed.

Lemma no_fence_candidate_witness :
  jsonCandidate (" " ++ docFixBug ++ newline) = Some docFixBug.
Proof.
  exact (no_fence_candidate (" " ++ docFixBug ++ newline) eq_refl).
Defined.

Section Outcomes.

Variable jsonError : Type.
Variable json_Unmarshal :
  string -> LLMResponse -> LLMResponse * option jsonError.

Lemma ParseLLMResponse_ok_fields (raw : string) (r : LLMResponse) :
  ParseLLMResponse jsonError json_Unmarshal raw = (r, None) ->
  Summary r <> "" /\ ProjectNameSuggestion r <> "".
Proof.
  unfold ParseLLMResponse.
  destruct (jsonCandidate raw) as [c|]; [|discriminate].
  destruct (json_Unmarshal c zeroLLMResponse) as [resp [e|]];
    [discriminate|].
  destruct (String.eqb_spec (Summary resp) "") as [Hs|Hs]; [discriminate|].
  destruct (String.eqb_spec (ProjectNameSuggestion resp) "") as [Hp|Hp];
    [discriminate|].
  intros [= <-]. now split.
Qed.

(** X5.  [ParseLLMResponse] succeeds exactly when there is a candidate,
    the decoder accepts it, and the decoded summary and project name
    suggestion are both non-empty; the record returned is then the
    decoded one.  It reports the project name suggestion as missing
    exactly when the decoder accepts the candidate with a non-empty
    summary and an empty suggestion. *)
Theorem parse_outcomes (raw : string) (r : LLMResponse) :
  (ParseLLMResponse jsonError json_Unmarshal raw = (r, None)
   <-> exists c,
         jsonCandidate raw = Some c
         /\ json_Unmarshal c zeroLLMResponse = (r, None)
         /\ Summary r <> "" /\ ProjectNameSuggestion r <> "")
  /\ (ParseLLMResponse jsonError json_Unmarshal raw
      = (r, Some (ErrLLMResponseMissingField "project_name_suggestion"))
      <-> exists c,
            jsonCandidate raw = Some c
            /\ json_Unmarshal c zeroLLMResponse = (r, None)
            /\ Summary r <> "" /\ ProjectNameSuggestion r = "").
Proof.
  unfold ParseLLMResponse.
  destruct (jsonCandidate raw) as [c|].
  2:{ split; split; try discriminate; intros (c & H & _); discriminate H. }
  destruct (json_Unmarshal c zeroLLMResponse) as [resp [e|]] eqn:Hu.
  { split; split; try discriminate; intros (c' & H & Hu' & _);
      injection H as <-; rewrite Hu in Hu'; discriminate Hu'. }
  destruct (String.eqb_spec (Summary resp) "") as [Hs|Hs].
  { split; split; try discriminate; intros (c' & H & Hu' & Hs' & _);
      injection H as <-; rewrite Hu in Hu'; injection Hu' as <-;
      contradiction. }
  destruct (String.eqb_spec (ProjectNameSuggestion resp) "") as [Hp|Hp].
  - split; split.
    + discriminate.
    + intros (c' & H & Hu' & _ & Hp'). injection H as <-.
      rewrite Hu in Hu'. injection Hu' as <-. contradiction.
    + intros H. injection H as <-. now exists c.
    + intros (c' & H & Hu' & _). injection H as <-.
      rewrite Hu in Hu'. now injection Hu' as <-.
  - split; split.
    + intros H. injection H as <-. now exists c.
    + intros (c' & H & Hu' & _). injection H as <-.
      rewrite Hu in Hu'. now injection Hu' as <-.
    + discriminate.
    + intros (c' & H & Hu' & _ & Hp'). injection H as <-.
      rewrite Hu in Hu'. injection Hu' as <-. contradiction.
Qed.

End Outcomes.

Lemma decoder_is_only_given_objects_witness :
  ParseLLMResponse string sampleUnmarshal blobFixBug
  = ParseLLMResponse string
      (fun c r => if HasPrefix c "{" then sampleUnmarshal c r
                  else (r, None))
      blobFixBug.
Proof.
  apply (decoder_is_only_given_objects string sampleUnmarshal
           (fun c r => if HasPrefix c "{" then sampleUnmarshal c r
                       else (r, None)) blobFixBug).
  intros c r Hp _ _. now rewrite Hp.
Defined.

Lemma parse_outcomes_witness :
  exists c,
    jsonCandidate blobFixBug = Some c
    /\ sampleUnmarshal c zeroLLMResponse
       = ({| Summary := "Fix bug"; Description := "";
             ProjectNameSuggestion := "Web" |}, None)
    /\ "Fix bug" <> "" /\ "Web" <> "".
Proof.
  destruct (parse_outcomes string sampleUnmarshal blobFixBug
              {| Summary := "Fix bug"; Description := "";
                 ProjectNameSuggestion := "Web" |}) as [[H _] _].
  apply H. vm_compute. reflexivity.
Defined.

End ParserExtra.

(** ** GenerateTicketDetails *)

Module ClientSpec.
Import GoStrings Llm LlmClient Samples ParserExtra.
Local Open Scope string_scope.

(** The prompt starts with the system prompt and a blank line; so it is
    never empty. *)
Lemma ConstructPrompt_prefix (userInput systemPrompt context : string) :
  exists rest,
    ConstructPrompt userInput systemPrompt context
    = systemPrompt ++ nl ++ nl ++ rest.
Proof.
  unfold ConstructPrompt, promptParts.
  destruct (negb (String.eqb context "")); cbn [app String.concat];
    eexists; reflexivity.
Qed.

Lemma ConstructPrompt_nonempty (userInput systemPrompt context : string) :
  String.eqb (ConstructPrompt userInput systemPrompt context) "" = false.
Proof.
  destruct (ConstructPrompt_prefix userInput systemPrompt context)
    as [rest ->].
  now destruct systemPrompt.
Qed.

Section Client.

Variable apiError : Type.
Variable jsonError : Type.
Variable json_Unmarshal :
  string -> LLMResponse -> LLMResponse * option jsonError.

Abbreviation Generate :=
  (GenerateTicketDetails apiError jsonError json_Unmarshal).

(** X6.  [GenerateTicketDetails] never returns [ErrLLMPromptEmpty]: the
    prompt it builds holds at least the blank line after the system
    prompt, whatever the three texts are (all empty, too). *)
Theorem prompt_is_never_empty (o : OpenAIClient apiError)
    (userInput systemPrompt contextContent : string) :
  String.eqb (ConstructPrompt userInput systemPrompt contextContent) ""
  = false
  /\ snd (Generate o userInput systemPrompt contextContent)
     <> Some ErrLLMPromptEmpty.
Proof.
  split; [apply ConstructPrompt_nonempty|].
  unfold GenerateTicketDetails. rewrite ConstructPrompt_nonempty.
  destruct (client o) as [api|]; [|discriminate].
  destruct (api _) as [err|[|rawResponse rest]]; try discriminate.
  destruct (ParseLLMResponse jsonError json_Unmarshal rawResponse)
    as [resp [e|]]; discriminate.
Qed.

(** X7.  Every error of [GenerateTicketDetails] comes with the zero
    record: the record that the parser returns with a missing-field
    error is dropped.  A success is the parse of the first choice of the
    answer to one request, made of the model name of the client and of
    one user message holding the prompt; its summary and project name
    suggestion are not empty. *)
Theorem generate_outcomes (o : OpenAIClient apiError)
    (userInput systemPrompt contextContent : string) (r : LLMResponse) :
  (forall err,
     Generate o userInput systemPrompt contextContent = (r, Some err) ->
     r = zeroLLMResponse)
  /\ (Generate o userInput systemPrompt contextContent = (r, None) ->
      exists api rawResponse others,
        client o = Some api
        /\ api {| Model := modelName o;
                  Messages :=
                    [{| Role := ChatMessageRoleUser;
                        Content :=
                          ConstructPrompt userInput systemPrompt
                            contextContent |}] |}
           = inr (rawResponse :: others)
        /\ ParseLLMResponse jsonError json_Unmarshal rawResponse = (r, None)
        /\ Summary r <> "" /\ ProjectNameSuggestion r <> "").
Proof.
  unfold GenerateTicketDetails. rewrite ConstructPrompt_nonempty.
  destruct (client o) as [api|].
  2:{ split; [|discriminate]. intros err H. now injection H as <-. }
  destruct (api _) as [e|[|rawResponse others]] eqn:Hapi.
  1,2: split; [|discriminate]; intros err H; now injection H as <-.
  destruct (ParseLLMResponse jsonError json_Unmarshal rawResponse)
    as [resp [e|]] eqn:Hparse.
  - split; [|discriminate]. intros err H. now injection H as <-.
  - split; [discriminate|]. intros H. injection H as <-.
    exists api, rawResponse, others. repeat split; try assumption;
      apply (ParseLLMResponse_ok_fields jsonError json_Unmarshal
               rawResponse resp) in Hparse as [Hs Hp]; assumption.
Qed.

(** X8.  [NewOpenAIClient] refuses a nil client and replaces an empty
    model name by gpt-4o; a client it returns has a model name that is
    not empty (the given one when that is not empty), and
    [GenerateTicketDetails] on it never returns [ErrLLMClientNil]. *)
Theorem constructed_client_is_usable (name : string) :
  NewOpenAIClient apiError jsonError None name
  = (None, Some ErrLLMClientNil)
  /\ forall api : openaiClient apiError,
       exists o,
         NewOpenAIClient apiError jsonError (Some api) name = (Some o, None)
         /\ client o = Some api
         /\ modelName o = (if String.eqb name "" then GPT4o else name)
         /\ modelName o <> ""
         /\ forall userInput systemPrompt contextContent,
              snd (Generate o userInput systemPrompt contextContent)
              <> Some ErrLLMClientNil.
Proof.
  split; [reflexivity|]. intros api. eexists.
  split; [reflexivity|]. split; [reflexivity|]. split; [reflexivity|].
  split.
  - simpl. destruct (String.eqb_spec name ""); [discriminate|assumption].
  - intros userInput systemPrompt contextContent.
    unfold GenerateTicketDetails. simpl client.
    rewrite ConstructPrompt_nonempty.
    destruct (api _) as [e|[|rawResponse rest]]; try discriminate.
    destruct (ParseLLMResponse jsonError json_Unmarshal rawResponse)
      as [resp [e|]]; discriminate.
Qed.

End Client.

(** A client whose answer is the end-to-end blob of the specification. *)
Lemma generate_outcomes_witness :
  exists api rawResponse others,
    Some (fun _ : ChatCompletionRequest => inr [blobFixBug])
    = Some api
    /\ api {| Model := "gpt-4o";
              Messages :=
                [{| Role := ChatMessageRoleUser;
                    Content := ConstructPrompt "fix the bug" "system" "" |}]
           |}
       = (inr (rawResponse :: others) : string + list string)
    /\ ParseLLMResponse string sampleUnmarshal rawResponse
       = ({| Summary := "Fix bug"; Description := "";
             ProjectNameSuggestion := "Web" |}, None)
    /\ "Fix bug" <> "" /\ "Web" <> "".
Proof.
  destruct (generate_outcomes string string sampleUnmarshal
              {| client := Some (fun _ => inr [blobFixBug]);
                 modelName := "gpt-4o" |}
              "fix the bug" "system" ""
              {| Summary := "Fix bug"; Description := "";
                 ProjectNameSuggestion := "Web" |}) as [_ H].
  apply H. vm_compute. reflexivity.
Defined.

End ClientSpec.

(** ** The tsv output and the field list *)

Module SearchExtra.
Import GoStrings Mcpclient Reflect Cmd Extra Samples.
Import StringFacts TrimFacts ResolverSpec SearchSpec.
Local Open Scope string_scope.

Lemma Join_In (cells : list string) (sep : string) (c : ascii) :
  In c (bytes (Join cells sep)) ->
  In c (bytes sep) \/ exists cell, In cell cells /\ In c (bytes cell).
Proof.
  induction cells as [|cell cells IH]; [intros []|].
  destruct cells as [|cell' cells].
  - simpl. intros H. right. exists cell. auto.
  - change (Join (cell :: cell' :: cells) sep)
      with (cell ++ sep ++ Join (cell' :: cells) sep).
    rewrite !bytes_app. intros H.
    apply in_app_or in H as [H|H]; [right; exists cell; simpl; auto|].
    apply in_app_or in H as [H|H]; [now left|].
    apply IH in H as [H|(x & Hx & H)]; [now left|].
    right. exists x. split; [now right|assumption].
Qed.

Lemma sanitize_bytes (s : string) :
  bytes (sanitize s) = map sanitizeByte (bytes s).
Proof.
  unfold sanitize. induction s as [|c s IH]; [reflexivity|].
  cbn [ReplaceAll bytes list_ascii_of_string map]. f_equal; [|exact IH].
  unfold sanitizeByte.
  destruct (Ascii.eqb_spec c tab) as [->|H1]; [reflexivity|].
  destruct (Ascii.eqb_spec c lf) as [->|H2]; [reflexivity|].
  destruct (Ascii.eqb_spec c cr) as [->|H3]; [reflexivity|].
  reflexivity.
Qed.

Lemma sanitizeByte_clean (c : ascii) :
  c <> tab -> c <> lf -> c <> cr -> sanitizeByte c = c.
Proof.
  intros H1 H2 H3. unfold sanitizeByte.
  apply Ascii.eqb_neq in H1, H2, H3. now rewrite H1, H2, H3.
Qed.

Lemma sanitizeByte_not (c : ascii) :
  sanitizeByte c <> tab /\ sanitizeByte c <> lf /\ sanitizeByte c <> cr.
Proof.
  unfold sanitizeByte.
  destruct (Ascii.eqb_spec c tab) as [->|H1]; [repeat split; discriminate|].
  destruct (Ascii.eqb_spec c lf) as [->|H2]; [repeat split; discriminate|].
  destruct (Ascii.eqb_spec c cr) as [->|H3]; [repeat split; discriminate|].
  simpl. auto.
Qed.

Lemma bytes_length (s : string) : length (bytes s) = String.length s.
Proof. induction s as [|c s IH]; simpl; [reflexivity|]. now rewrite <- IH. Qed.

Section Tsv.

Variable EqualFold : string -> string -> bool.
Variable Sprintf_v : value -> string.

Lemma tsvCell_sanitize (issue : any) (fieldPath : string) (v : value) :
  getValueByPath EqualFold issue fieldPath = (Some v, true) ->
  tsvCell EqualFold Sprintf_v issue fieldPath = sanitize (Sprintf_v v).
Proof. intros H. unfold tsvCell. now rewrite H. Qed.

Lemma tsvCell_no_break (issue : any) (fieldPath : string) :
  ~ In lf (bytes (tsvCell EqualFold Sprintf_v issue fieldPath))
  /\ ~ In cr (bytes (tsvCell EqualFold Sprintf_v issue fieldPath)).
Proof.
  unfold tsvCell.
  destruct (getValueByPath EqualFold issue fieldPath) as [[v|] []];
    simpl; try tauto.
  fold (sanitize (Sprintf_v v)). rewrite sanitize_bytes.
  split; intros H; apply in_map_iff in H as (c & Hc & _);
    destruct (sanitizeByte_not c) as (_ & H2 & H3); contradiction.
Qed.

(** X9.  Every data row of the tsv output is one line: it holds no line
    feed and no carriage return, whatever the values of the record are
    and however they print. *)
Theorem tsv_rows_are_single_lines (outputFieldsStr : string)
    (issues : list Issue) (row : string) :
  In row (tl (searchTSV EqualFold Sprintf_v outputFieldsStr issues)) ->
  ~ In lf (bytes row) /\ ~ In cr (bytes row).
Proof.
  destruct issues as [|issue issues]; [intros []|]. cbn [searchTSV tl].
  intros H. apply in_map_iff in H as (i & <- & _). unfold tsvRow.
  split; intros H; apply Join_In in H as [H|(cell & Hcell & H)];
    try (cbv in H; destruct H as [H|[]]; discriminate H);
    apply in_map_iff in Hcell as (f & <- & _);
    destruct (tsvCell_no_break (Some (reflectIssue i)) f) as [Hl Hc];
    contradiction.
Qed.

(** X10.  The cell of a value that is found is the printed value with
    every tab, line feed and carriage return replaced by one space and
    every other byte kept: it has the length of the printed value, and it
    is the printed value when that holds none of the three bytes. *)
Theorem cell_is_the_sanitized_value (issue : any) (fieldPath : string)
    (v : value) :
  getValueByPath EqualFold issue fieldPath = (Some v, true) ->
  bytes (tsvCell EqualFold Sprintf_v issue fieldPath)
  = map sanitizeByte (bytes (Sprintf_v v))
  /\ String.length (tsvCell EqualFold Sprintf_v issue fieldPath)
     = String.length (Sprintf_v v)
  /\ (~ In tab (bytes (Sprintf_v v)) -> ~ In lf (bytes (Sprintf_v v)) ->
      ~ In cr (bytes (Sprintf_v v)) ->
      tsvCell EqualFold Sprintf_v issue fieldPath = Sprintf_v v).
Proof.
  intros H. rewrite (tsvCell_sanitize issue fieldPath v H).
  split; [apply sanitize_bytes|]. split.
  - now rewrite <- !bytes_length, sanitize_bytes, length_map.
  - intros H1 H2 H3. apply bytes_inj. rewrite sanitize_bytes.
    induction (bytes (Sprintf_v v)) as [|c l IH]; [reflexivity|].
    simpl in *. rewrite sanitizeByte_clean by intuition congruence.
    f_equal. apply IH; tauto.
Qed.

End Tsv.

Lemma tsv_rows_are_single_lines_witness :
  ~ In lf (bytes (Join ["TEST-2"; "Second issue with newline."] tabS))
  /\ ~ In cr (bytes (Join ["TEST-2"; "Second issue with newline."] tabS)).
Proof.
  apply (tsv_rows_are_single_lines EqualFoldASCII sampleSprintf
           "key,fields.description" [issue2]).
  left. vm_compute. reflexivity.
Defined.

Lemma cell_is_the_sanitized_value_witness :
  bytes (tsvCell EqualFoldASCII sampleSprintf (Some (reflectIssue issue2))
           "fields.description")
  = map sanitizeByte (bytes (IssueFields_Description (Issue_Fields issue2))).
Proof.
  apply (cell_is_the_sanitized_value EqualFoldASCII sampleSprintf
           (Some (reflectIssue issue2)) "fields.description"
           (VString (IssueFields_Description (Issue_Fields issue2)))).
  vm_compute. reflexivity.
Defined.

Section DefaultColumns.

Variable EqualFold : string -> string -> bool.
Variable Sprintf_v : value -> string.

(** On texts of ASCII bytes [strings.EqualFold] is the folding of the
    ASCII letters, and [%v] prints a string as it is. *)
Hypothesis EqualFold_ascii :
  forall s t, isASCII s = true -> isASCII t = true ->
              EqualFold s t = EqualFoldASCII s t.
Hypothesis Sprintf_string : forall s, Sprintf_v (VString s) = s.

(** Resolve one segment in a struct of the records of the search. *)
Ltac member :=
  unfold structLookup, FieldByNameFunc;
  cbn [List.filter fst Name exported];
  rewrite ?EqualFold_ascii by reflexivity;
  reflexivity.

Lemma issue_key (i : Issue) :
  getValueByPath EqualFold (Some (reflectIssue i)) "key"
  = (Some (VString (Issue_Key i)), true).
Proof.
  unfold getValueByPath. change (Split "key" ".") with ["key"].
  cbn [getValueRecursive reflectIssue deref].
  replace (structLookup EqualFold _ "key")
    with (Some (exported "Key" "key", VString (Issue_Key i))) by (symmetry; member).
  reflexivity.
Qed.

Lemma issue_fields_member (i : Issue) (part : string) (rest : list string) :
  getValueRecursive EqualFold (Some (reflectIssue i))
    ("fields" :: part :: rest)
  = getValueRecursive EqualFold
      (Some (reflectIssueFields (Issue_Fields i))) (part :: rest).
Proof.
  cbn [getValueRecursive reflectIssue deref].
  replace (structLookup EqualFold _ "fields")
    with (Some (exported "Fields" "fields",
                reflectIssueFields (Issue_Fields i)))
    by (symmetry; member).
  reflexivity.
Qed.

Lemma issue_summary (i : Issue) :
  getValueByPath EqualFold (Some (reflectIssue i)) "fields.summary"
  = (Some (VString (IssueFields_Summary (Issue_Fields i))), true).
Proof.
  unfold getValueByPath.
  change (Split "fields.summary" ".") with ["fields"; "summary"].
  rewrite issue_fields_member.
  cbn [getValueRecursive reflectIssueFields deref].
  replace (structLookup EqualFold _ "summary")
    with (Some (exported "Summary" "summary",
                VString (IssueFields_Summary (Issue_Fields i))))
    by (symmetry; member).
  reflexivity.
Qed.

Lemma issue_status_name (i : Issue) :
  getValueByPath EqualFold (Some (reflectIssue i)) "fields.status.name"
  = (Some (VString (Status_Name (IssueFields_Status (Issue_Fields i)))),
     true).
Proof.
  unfold getValueByPath.
  change (Split "fields.status.name" ".") with ["fields"; "status"; "name"].
  rewrite issue_fields_member.
  cbn [getValueRecursive reflectIssueFields deref].
  replace (structLookup EqualFold _ "status")
    with (Some (exported "Status" "status",
                reflectStatus (IssueFields_Status (Issue_Fields i))))
    by (symmetry; member).
  cbn [getValueRecursive reflectStatus deref].
  replace (structLookup EqualFold _ "name")
    with (Some (exported "Name" "name",
                VString (Status_Name (IssueFields_Status (Issue_Fields i)))))
    by (symmetry; member).
  reflexivity.
Qed.

Lemma issue_type_name (i : Issue) :
  getValueByPath EqualFold (Some (reflectIssue i)) "fields.issuetype.name"
  = (Some (VString
             (IssueType_Name (IssueFields_IssueType (Issue_Fields i)))),
     true).
Proof.
  unfold getValueByPath.
  change (Split "fields.issuetype.name" ".")
    with ["fields"; "issuetype"; "name"].
  rewrite issue_fields_member.
  cbn [getValueRecursive reflectIssueFields deref].
  replace (structLookup EqualFold _ "issuetype")
    with (Some (exported "IssueType" "issuetype",
                reflectIssueType (IssueFields_IssueType (Issue_Fields i))))
    by (symmetry; member).
  cbn [getValueRecursive reflectIssueType deref].
  replace (structLookup EqualFold _ "name")
    with (Some (exported "Name" "name",
                VString
                  (IssueType_Name
                     (IssueFields_IssueType (Issue_Fields i)))))
    by (symmetry; member).
  reflexivity.
Qed.

(** X11.  Without a field list the tsv output of a non-empty collection
    is the header of the four default paths and, for every record, its
    key, summary, status name and issue type name, each with tabs, line
    feeds and carriage returns replaced by spaces: the four default paths
    resolve on every record. *)
Theorem default_tsv_columns (issue : Issue) (issues : list Issue) :
  searchTSV EqualFold Sprintf_v "" (issue :: issues)
  = Join ["key"; "fields.summary"; "fields.status.name";
          "fields.issuetype.name"] tabS
    :: map
         (fun i =>
            Join
              [sanitize (Issue_Key i);
               sanitize (IssueFields_Summary (Issue_Fields i));
               sanitize (Status_Name (IssueFields_Status (Issue_Fields i)));
               sanitize
                 (IssueType_Name (IssueFields_IssueType (Issue_Fields i)))]
              tabS)
         (issue :: issues).
Proof.
  cbn [searchTSV]. change (tsvFields "") with defaultTsvFields.
  f_equal. apply map_ext. intros i. unfold tsvRow, defaultTsvFields.
  cbn [map]. unfold tsvCell.
  rewrite issue_key, issue_summary, issue_status_name, issue_type_name.
  now rewrite !Sprintf_string.
Qed.

End DefaultColumns.

Lemma EqualFoldASCII_self :
  forall s t, isASCII s = true -> isASCII t = true ->
              EqualFoldASCII s t = EqualFoldASCII s t.
Proof. reflexivity. Qed.

Lemma default_tsv_columns_witness :
  searchTSV EqualFoldASCII sampleSprintf "" [issue1]
  = [Join ["key"; "fields.summary"; "fields.status.name";
           "fields.issuetype.name"] tabS;
     Join ["TEST-1"; "Found issue 1 with details"; "Open"; "Bug"] tabS].
Proof.
  exact (default_tsv_columns EqualFoldASCII sampleSprintf
           EqualFoldASCII_self (fun s => eq_refl) issue1 []).
Defined.

Lemma splitBytes_piece_no_sep (sep : ascii) (s p : list ascii) :
  In p (splitBytes sep s) -> ~ In sep p.
Proof.
  revert p. induction s as [|c s IH]; intros p; simpl.
  - intros [<-|[]]. tauto.
  - destruct (Ascii.eqb_spec c sep) as [->|Hne].
    + intros [<-|H]; [tauto|now apply IH].
    + destruct (splitBytes sep s) as [|cur rest] eqn:E.
      * intros [<-|[]]. intros [H|[]]. congruence.
      * intros [<-|H].
        -- intros [H|H]; [congruence|]. now apply (IH cur); [left|].
        -- apply IH. now right.
Qed.

(** X12.  Every field of the list read from the [--output-fields] flag
    is a non-empty text without comma and without white space at either
    end (trimming it changes nothing). *)
Theorem output_fields_are_clean (outputFieldsStr field : string) :
  In field (parseOutputFields outputFieldsStr) ->
  field <> "" /\ TrimSpace field = field /\ ~ In ","%char (bytes field).
Proof.
  unfold parseOutputFields.
  destruct (String.eqb outputFieldsStr ""); [intros []|].
  intros H. apply filter_In in H as [H Hne].
  apply in_map_iff in H as (piece & <- & H).
  unfold Split in H. apply in_map_iff in H as (p & <- & Hp).
  split; [|split].
  - apply negb_true_iff in Hne. now apply String.eqb_neq in Hne.
  - apply TrimSpace_idempotent.
  - unfold TrimSpace. rewrite !bytes_str. intros Hin.
    apply trimSpaceBytes_In in Hin.
    now apply (splitBytes_piece_no_sep "," (bytes outputFieldsStr) p).
Qed.

Lemma output_fields_are_clean_witness :
  "fields.summary" <> "" /\ TrimSpace "fields.summary" = "fields.summary"
  /\ ~ In ","%char (bytes "fields.summary").
Proof.
  apply (output_fields_are_clean " key ,, fields.summary " "fields.summary").
  right. left. vm_compute. reflexivity.
Defined.

Lemma splitBytes_separators (s : list ascii) :
  forallb (fun c => Ascii.eqb c "," || asciiSpace c) s = true ->
  Forall (fun p => forallb asciiSpace p = true) (splitBytes "," s).
Proof.
  induction s as [|c s IH]; simpl; intros H.
  - now constructor.
  - apply andb_true_iff in H as [Hc Hs]. specialize (IH Hs).
    destruct (Ascii.eqb c ",") eqn:E; [now constructor|].
    simpl in Hc. destruct (splitBytes "," s) as [|cur rest].
    + constructor; [|constructor]. simpl. now rewrite Hc.
    + inversion IH as [|? ? Hcur Hrest]; subst.
      constructor; [|assumption]. simpl. now rewrite Hc, Hcur.
Qed.

Section Blank.

Variable EqualFold : string -> string -> bool.
Variable Sprintf_v : value -> string.

(** X13.  A value of the [--output-fields] flag made of commas and white
    space only names no field: the field list is empty, and the tsv
    output is the one without the flag, with the four default columns. *)
Theorem blank_field_list_means_default (outputFieldsStr : string)
    (issues : list Issue) :
  onlySeparators outputFieldsStr = true ->
  parseOutputFields outputFieldsStr = []
  /\ tsvFields outputFieldsStr = defaultTsvFields
  /\ searchTSV EqualFold Sprintf_v outputFieldsStr issues
     = searchTSV EqualFold Sprintf_v "" issues.
Proof.
  intros H.
  assert (parseOutputFields outputFieldsStr = []) as Hnone.
  { unfold parseOutputFields.
    destruct (String.eqb outputFieldsStr ""); [reflexivity|].
    unfold Split. apply splitBytes_separators in H.
    induction H as [|p ps Hp Hps IH]; [reflexivity|].
    cbn [map List.filter]. unfold TrimSpace at 1.
    rewrite bytes_str, (trimSpaceBytes_blank p Hp). simpl. exact IH. }
  assert (tsvFields outputFieldsStr = defaultTsvFields) as Hdef.
  { unfold tsvFields. rewrite Hnone. simpl.
    now destruct (negb (String.eqb outputFieldsStr "")). }
  split; [exact Hnone|]. split; [exact Hdef|].
  destruct issues as [|issue issues]; [reflexivity|].
  cbn [searchTSV]. now rewrite Hdef.
Qed.

End Blank.

Lemma blank_field_list_means_default_witness :
  parseOutputFields ",, ," = []
  /\ tsvFields ",, ," = defaultTsvFields
  /\ searchTSV EqualFoldASCII sampleSprintf ",, ," [issue1]
     = searchTSV EqualFoldASCII sampleSprintf "" [issue1].
Proof.
  exact (blank_field_list_means_default EqualFoldASCII sampleSprintf
           ",, ," [issue1] eq_refl).
Defined.

End SearchExtra.

(** ** The create command *)

Module CreateSpec.
Import GoStrings Llm Create Samples CreateSamples.
Local Open Scope string_scope.

Section Mapper.

Variable EqualFold : string -> string -> bool.

Lemma firstLink_Some (suggestion : string) (projects : list ProjectLink)
    (link : ProjectLink) :
  firstLink EqualFold suggestion projects = Some link ->
  exists before after,
    projects = (before ++ link :: after)%list
    /\ Forall (noMatch EqualFold suggestion) before
    /\ EqualFold suggestion (ProjectLink_Name link) = true.
Proof.
  induction projects as [|l rest IH]; simpl; [discriminate|].
  destruct (EqualFold suggestion (ProjectLink_Name l)) eqn:E.
  - intros [= <-]. exists [], rest. repeat split; [constructor|exact E].
  - intros H. destruct (IH H) as (before & after & -> & Hb & Hm).
    exists (l :: before), after. repeat split; [|exact Hm].
    constructor; assumption.
Qed.

Lemma firstLink_None (suggestion : string) (projects : list ProjectLink) :
  firstLink EqualFold suggestion projects = None
  <-> Forall (noMatch EqualFold suggestion) projects.
Proof.
  induction projects as [|l rest IH]; simpl.
  - split; [constructor|reflexivity].
  - destruct (EqualFold suggestion (ProjectLink_Name l)) eqn:E.
    + split; [discriminate|]. intros H. inversion H as [|? ? Hl _]. 
      unfold noMatch in Hl. congruence.
    + rewrite IH. split.
      * intros H. constructor; assumption.
      * intros H. now inversion H.
Qed.

Lemma MapSuggestionToKey_ok (suggestion : string)
    (linksCfg : option LinksConfig) (key : string)
    (matched : option ProjectLink) :
  MapSuggestionToKey EqualFold suggestion linksCfg = (key, matched, None) ->
  exists cfg before link after,
    linksCfg = Some cfg
    /\ Projects cfg = Some (before ++ link :: after)%list
    /\ Forall (noMatch EqualFold suggestion) before
    /\ EqualFold suggestion (ProjectLink_Name link) = true
    /\ key = ProjectLink_Key link
    /\ matched = Some link.
Proof.
  unfold MapSuggestionToKey.
  destruct linksCfg as [cfg|]; [|discriminate].
  destruct (Projects cfg) as [projects|] eqn:Ep; [|discriminate].
  destruct (firstLink EqualFold suggestion projects) as [link|] eqn:Ef;
    [|discriminate].
  intros [= <- <-].
  destruct (firstLink_Some _ _ _ Ef) as (before & after & -> & Hb & Hm).
  exists cfg, before, link, after. repeat split; assumption.
Qed.

Lemma firstLink_app (suggestion : string) (before after : list ProjectLink)
    (link : ProjectLink) :
  Forall (noMatch EqualFold suggestion) before ->
  EqualFold suggestion (ProjectLink_Name link) = true ->
  firstLink EqualFold suggestion (before ++ link :: after) = Some link.
Proof.
  intros Hb Hm. induction Hb as [|l before Hl Hb IH]; simpl.
  - now rewrite Hm.
  - unfold noMatch in Hl. now rewrite Hl.
Qed.

(** X14.  [MapSuggestionToKey] succeeds exactly when the configuration
    has a list of projects with a link whose name equals the suggestion
    under [strings.EqualFold]; the link returned is then the first such
    link of the list, and the key returned is the key of that link: a
    link with a matching name further down the list is never chosen. *)
Theorem mapped_key_is_of_first_match (suggestion : string)
    (linksCfg : option LinksConfig) (key : string)
    (matched : option ProjectLink) :
  MapSuggestionToKey EqualFold suggestion linksCfg = (key, matched, None)
  <-> exists cfg before link after,
        linksCfg = Some cfg
        /\ Projects cfg = Some (before ++ link :: after)%list
        /\ Forall (noMatch EqualFold suggestion) before
        /\ EqualFold suggestion (ProjectLink_Name link) = true
        /\ key = ProjectLink_Key link
        /\ matched = Some link.
Proof.
  split; [apply MapSuggestionToKey_ok|].
  intros (cfg & before & link & after & -> & Hp & Hb & Hm & -> & ->).
  unfold MapSuggestionToKey. rewrite Hp.
  now rewrite (firstLink_app suggestion before after link Hb Hm).
Qed.

(** X15.  For a configuration with a list of projects (empty or not),
    [MapSuggestionToKey] fails, with [ErrProjectMappingFailed], the empty
    key and no link, exactly when no link of the list has a name equal to
    the suggestion under [strings.EqualFold]. *)
Theorem mapping_fails_iff_no_link_matches (suggestion : string)
    (cfg : LinksConfig) (projects : list ProjectLink) :
  Projects cfg = Some projects ->
  (MapSuggestionToKey EqualFold suggestion (Some cfg)
   = ("", None, Some ErrProjectMappingFailed)
   <-> Forall (noMatch EqualFold suggestion) projects).
Proof.
  unfold MapSuggestionToKey. intros ->. rewrite <- firstLink_None.
  destruct (firstLink EqualFold suggestion projects);
    split; try discriminate; reflexivity.
Qed.

End Mapper.

Lemma mapped_key_is_of_first_match_witness :
  exists cfg before link after,
    Some links = Some cfg
    /\ Projects cfg = Some (before ++ link :: after)%list
    /\ Forall (noMatch EqualFoldASCII "infra") before
    /\ EqualFoldASCII "infra" (ProjectLink_Name link) = true
    /\ "OPS" = ProjectLink_Key link
    /\ Some infra = Some link.
Proof.
  apply (mapped_key_is_of_first_match EqualFoldASCII "infra" (Some links)
           "OPS" (Some infra)).
  reflexivity.
Defined.

Lemma Resolve_nonempty (flagType : string)
    (matchedProjectLink : option ProjectLink) (projectKey : string) :
  Resolve flagType matchedProjectLink projectKey <> "".
Proof.
  unfold Resolve.
  destruct (String.eqb_spec flagType "") as [->|Hf]; simpl; [|exact Hf].
  destruct matchedProjectLink as [link|]; [|discriminate].
  destruct (String.eqb_spec (ProjectLink_DefaultIssueType link) "");
    simpl; [discriminate|assumption].
Qed.

(** X16.  The issue type chosen by [Resolve] is never empty, and it is
    the flag, the default issue type of the matched link, or "Task". *)
Theorem issue_type_is_never_empty (flagType : string)
    (matchedProjectLink : option ProjectLink) (projectKey : string) :
  Resolve flagType matchedProjectLink projectKey <> ""
  /\ (Resolve flagType matchedProjectLink projectKey = flagType
      \/ (exists link,
            matchedProjectLink = Some link
            /\ Resolve flagType matchedProjectLink projectKey
               = ProjectLink_DefaultIssueType link)
      \/ Resolve flagType matchedProjectLink projectKey = "Task").
Proof.
  unfold Resolve.
  destruct (String.eqb_spec flagType "") as [->|Hf]; simpl.
  - destruct matchedProjectLink as [link|].
    + destruct (String.eqb_spec (ProjectLink_DefaultIssueType link) "")
        as [Hd|Hd]; simpl.
      * split; [discriminate|]. right. now right.
      * split; [exact Hd|]. right. left. now exists link.
    + split; [discriminate|]. right. now right.
  - split; [exact Hf|]. now left.
Qed.

Section Runner.

Variables loadError llmError mcpError inputError formatError : Type.
Variable EqualFold : string -> string -> bool.

Abbreviation Runner := (newCreateCmdRunner EqualFold) (only parsing).

Variable LLM : option (llmClient llmError).
Variable MCP : option (MCPClient mcpError).
Variable loaded : loadError + loadedConfigs.
Variable args : list string.
Variable issueTypeFlag : string.
Variable confirmInteractively : CreateIssueRequest -> inputError + bool.
Variable formatOutput : CreateIssueResponse -> option formatError.

(** X17.  A request that [Run], with the default mapper and resolver,
    passes to [CreateIssue] is made of the answer of the language model
    to the arguments joined by spaces: its project key is the key of the
    first configured link whose name equals the suggested project name
    under [strings.EqualFold], its issue type is the one [Resolve] gives
    for the flag and that link, and is not empty, and the confirmation
    step has accepted this very request. *)
Theorem created_request_comes_from_the_mapping
    (request : CreateIssueRequest) :
  In request
    (fst (Run (Runner LLM MCP) loaded args issueTypeFlag
            confirmInteractively formatOutput)) ->
  exists loadedCfgs generate llmResponse cfg before link after,
    loaded = inr loadedCfgs
    /\ LLM = Some generate
    /\ generate (Join args " ") (systemPrompt loadedCfgs)
         (contextData loadedCfgs) = (llmResponse, None)
    /\ linksConfig loadedCfgs = Some cfg
    /\ Projects cfg = Some (before ++ link :: after)%list
    /\ Forall (noMatch EqualFold (ProjectNameSuggestion llmResponse)) before
    /\ EqualFold (ProjectNameSuggestion llmResponse) (ProjectLink_Name link)
       = true
    /\ request
       = {| CreateIssueRequest_ProjectKey := ProjectLink_Key link;
            CreateIssueRequest_Summary := Summary llmResponse;
            CreateIssueRequest_Description := Description llmResponse;
            CreateIssueRequest_IssueType :=
              Resolve issueTypeFlag (Some link) (ProjectLink_Key link) |}
    /\ CreateIssueRequest_IssueType request <> ""
    /\ confirmInteractively request = inr true.
Proof.
  unfold Run. cbn [runner_llmClient runner_mcpClient projectMapper
                   issueTypeResolver newCreateCmdRunner].
  destruct loaded as [err|loadedCfgs]; [intros []|].
  destruct LLM as [generate|]; [|intros []].
  destruct (generate _ _ _) as [llmResponse [err|]] eqn:Eg; [intros []|].
  destruct (MapSuggestionToKey _ _ _) as [[key matched] [err|]] eqn:Em;
    [intros []|].
  destruct (MapSuggestionToKey_ok _ _ _ _ _ Em)
    as (cfg & before & link & after & Hcfg & Hp & Hb & Hm & -> & ->).
  destruct MCP as [mcp|]; [|intros []].
  destruct (confirmInteractively _) as [err|[|]] eqn:Ec;
    [intros []| |intros []].
  assert (forall rest : list CreateIssueRequest,
            rest = [] ->
            In request
              ({| CreateIssueRequest_ProjectKey := ProjectLink_Key link;
                  CreateIssueRequest_Summary := Summary llmResponse;
                  CreateIssueRequest_Description := Description llmResponse;
                  CreateIssueRequest_IssueType :=
                    Resolve issueTypeFlag (Some link)
                      (ProjectLink_Key link) |} :: rest) ->
            exists loadedCfgs0 generate0 llmResponse0 cfg0 before0 link0
                   after0,
              @inr loadError _ loadedCfgs = inr loadedCfgs0
              /\ Some generate = Some generate0
              /\ generate0 (Join args " ") (systemPrompt loadedCfgs0)
                   (contextData loadedCfgs0) = (llmResponse0, None)
              /\ linksConfig loadedCfgs0 = Some cfg0
              /\ Projects cfg0 = Some (before0 ++ link0 :: after0)%list
              /\ Forall
                   (noMatch EqualFold (ProjectNameSuggestion llmResponse0))
                   before0
              /\ EqualFold (ProjectNameSuggestion llmResponse0)
                   (ProjectLink_Name link0) = true
              /\ request
                 = {| CreateIssueRequest_ProjectKey := ProjectLink_Key link0;
                      CreateIssueRequest_Summary := Summary llmResponse0;
                      CreateIssueRequest_Description :=
                        Description llmResponse0;
                      CreateIssueRequest_IssueType :=
                        Resolve issueTypeFlag (Some link0)
                          (ProjectLink_Key link0) |}
              /\ CreateIssueRequest_IssueType request <> ""
              /\ confirmInteractively request = inr true) as Hone.
  { intros rest -> [<-|[]].
    exists loadedCfgs, generate, llmResponse, cfg, before, link, after.
    repeat split; try assumption; try reflexivity.
    apply Resolve_nonempty. }
  destruct (mcp _) as [err|resp]; [now apply Hone|].
  destruct (formatOutput resp); now apply Hone.
Qed.

(** X18.  Whatever the mapper and the resolver of the runner, [Run]
    calls [CreateIssue] at most once, and not at all unless the
    confirmation step says to proceed; when that step declines, an error
    of [Run] is never one of the steps after it (reading the answer,
    creating the issue, writing the output). *)
Theorem nothing_is_created_without_confirmation
    (r : createCmdRunner llmError mcpError) :
  length
    (fst (Run r loaded args issueTypeFlag confirmInteractively formatOutput))
  <= 1
  /\ ((forall request, confirmInteractively request <> inr true) ->
      fst (Run r loaded args issueTypeFlag confirmInteractively formatOutput)
      = [])
  /\ ((forall request, confirmInteractively request = inr false) ->
      forall err,
        snd (Run r loaded args issueTypeFlag confirmInteractively
               formatOutput) = Some err ->
        match err with
        | ErrInput _ | ErrCreateIssue _ | ErrFormat _ => False
        | _ => True
        end).
Proof.
  unfold Run.
  destruct loaded as [err|loadedCfgs]; [simpl; repeat split; try lia; now intros _ e [= <-]|].
  destruct (runner_llmClient r) as [generate|];
    [|simpl; repeat split; try lia; now intros _ e [= <-]].
  destruct (generate _ _ _) as [llmResponse [err|]];
    [simpl; repeat split; try lia; now intros _ e [= <-]|].
  destruct (projectMapper r _ _) as [[key matched] [err|]];
    [simpl; repeat split; try lia; now intros _ e [= <-]|].
  destruct (runner_mcpClient r) as [mcp|];
    [|simpl; repeat split; try lia; now intros _ e [= <-]].
  destruct (confirmInteractively _) as [err|[|]] eqn:Ec.
  - simpl. split; [lia|]. split; [reflexivity|].
    intros H. rewrite H in Ec. discriminate.
  - split; [|split].
    + destruct (mcp _) as [err|resp]; [simpl; lia|].
      destruct (formatOutput resp); simpl; lia.
    + intros H. now apply H in Ec.
    + intros H. rewrite H in Ec. discriminate.
  - simpl. split; [lia|]. split; [reflexivity|]. discriminate.
Qed.

End Runner.

Lemma created_request_comes_from_the_mapping_witness :
  exists loadedCfgs generate llmResponse cfg before link after,
    @inr unit _ sampleConfigs = inr loadedCfgs
    /\ Some sampleLLM = Some generate
    /\ generate (Join ["fix"; "login"] " ") (systemPrompt loadedCfgs)
         (contextData loadedCfgs) = (llmResponse, None)
    /\ linksConfig loadedCfgs = Some cfg
    /\ Projects cfg = Some (before ++ link :: after)%list
    /\ Forall (noMatch EqualFoldASCII (ProjectNameSuggestion llmResponse))
         before
    /\ EqualFoldASCII (ProjectNameSuggestion llmResponse)
         (ProjectLink_Name link) = true
    /\ sampleRequest
       = {| CreateIssueRequest_ProjectKey := ProjectLink_Key link;
            CreateIssueRequest_Summary := Summary llmResponse;
            CreateIssueRequest_Description := Description llmResponse;
            CreateIssueRequest_IssueType :=
              Resolve "" (Some link) (ProjectLink_Key link) |}
    /\ CreateIssueRequest_IssueType sampleRequest <> ""
    /\ (fun _ : CreateIssueRequest => @inr unit bool true) sampleRequest
       = inr true.
Proof.
  apply (created_request_comes_from_the_mapping unit unit unit unit unit
           EqualFoldASCII (Some sampleLLM) (Some sampleMCP)
           (inr sampleConfigs) ["fix"; "login"] ""
           (fun _ => inr true) (fun _ => None) sampleRequest).
  left. reflexivity.
Defined.

Lemma nothing_is_created_without_confirmation_witness :
  fst (Run (newCreateCmdRunner EqualFoldASCII (Some sampleLLM)
              (Some sampleMCP))
         (@inr unit _ sampleConfigs) ["fix"; "login"] ""
         (fun _ => @inr unit bool false) (fun _ => @None unit))
  = [].
Proof.
  apply (nothing_is_created_without_confirmation unit unit unit unit unit
           (inr sampleConfigs) ["fix"; "login"] ""
           (fun _ => inr false) (fun _ => None)
           (newCreateCmdRunner EqualFoldASCII (Some sampleLLM)
              (Some sampleMCP))).
  discriminate.
Defined.

Lemma mapping_fails_iff_no_link_matches_witness :
  MapSuggestionToKey EqualFoldASCII "billing" (Some links)
  = ("", None, Some ErrProjectMappingFailed).
Proof.
  apply (mapping_fails_iff_no_link_matches EqualFoldASCII "billing"
           links [acme; infra; shadowed] eq_refl).
  repeat constructor.
Defined.

(** The runner on the sample data, as the tests of the command set it
    up: the request names the project of the first matching link and the
    hard-coded issue type. *)
Example run_sample :
  Run (newCreateCmdRunner EqualFoldASCII (Some sampleLLM) (Some sampleMCP))
    (@inr unit _ sampleConfigs) ["fix"; "login"] ""
    (fun _ => @inr unit bool true) (fun _ => @None unit)
  = ([sampleRequest], None).
Proof. reflexivity. Qed.

End CreateSpec.

(** ** Paths made of two paths *)

Module ResolverExtra.
Import GoStrings Reflect Cmd Mcpclient Samples StringFacts.
Local Open Scope string_scope.





Section Compose.

Variable EqualFold : string -> string -> bool.




End Compose.

Example status_name_in_two_steps :
  getValueByPath EqualFoldASCII (Some (reflectIssue issue1))
    "fields.status.name"
  = getValueByPath EqualFoldASCII
      (fst (getValueByPath EqualFoldASCII (Some (reflectIssue issue1))
              "fields.status"))
      "name".
Proof. reflexivity. Qed.

End ResolverExtra.

(** ** White space around the answer *)

Module PaddingSpec.
Import GoStrings GoRegexp Llm Extra Samples StringFacts RegexpFacts
  FenceFacts TrimFacts.

(** *** The scans of [strings.TrimSpace] *)

(** An ASCII white-space byte is no part of the encoding of a wider
    white-space rune. *)
Lemma asciiSpace_cases (c : ascii) :
  asciiSpace c = true ->
  c = tab \/ c = lf \/ c = vt \/ c = ff \/ c = cr \/ c = sp.
Proof.
  unfold asciiSpace. rewrite !orb_true_iff, !Ascii.eqb_eq. tauto.
Qed.

Lemma asciiSpace_not_second (c d : ascii) :
  asciiSpace d = true -> spaceRune2 c d = false.
Proof.
  intros H. unfold spaceRune2.
  destruct (asciiSpace_cases d H) as [-> | [-> | [-> | [-> | [-> | ->]]]]];
    apply andb_false_r.
Qed.

Lemma asciiSpace_not_third (c d e : ascii) :
  asciiSpace e = true -> spaceRune3 c d e = false.
Proof.
  intros H. unfold spaceRune3.
  destruct (asciiSpace_cases e H) as [-> | [-> | [-> | [-> | [-> | ->]]]]];
    cbv [byteIn tab lf vt ff cr sp]; simpl;
    rewrite ?andb_false_r; reflexivity.
Qed.

Lemma asciiSpace_not_middle (c d e : ascii) :
  asciiSpace d = true -> spaceRune3 c d e = false.
Proof.
  intros H. unfold spaceRune3.
  destruct (asciiSpace_cases d H) as [-> | [-> | [-> | [-> | [-> | ->]]]]];
    cbv [tab lf vt ff cr sp]; simpl;
    rewrite ?andb_false_r; reflexivity.
Qed.

(** The left scan of a text followed by ASCII white space: the white
    space stays, unless the text is white space throughout. *)
Lemma trimLeftSpace_app_spaces (ws : list ascii) :
  forallb asciiSpace ws = true ->
  forall s,
    trimLeftSpace (s ++ ws)
    = match trimLeftSpace s with
      | [] => []
      | t => t ++ ws
      end.
Proof.
  intros Hws s. induction s as [s IH] using list_strong_ind.
  destruct s as [|c s1].
  { simpl. rewrite <- (app_nil_r ws). now apply trimLeftSpace_spaces. }
  cbn [app trimLeftSpace].
  destruct (asciiSpace c) eqn:E1; [apply IH; simpl; lia|].
  destruct s1 as [|d s2].
  { cbn [app]. destruct ws as [|w1 ws1]; [reflexivity|].
    apply andb_true_iff in Hws as [Hw1 Hws1].
    rewrite (asciiSpace_not_second c w1 Hw1).
    destruct ws1 as [|w2 ws2]; [reflexivity|].
    now rewrite (asciiSpace_not_middle c w1 w2 Hw1). }
  cbn [app].
  destruct (spaceRune2 c d) eqn:E2; [apply IH; simpl; lia|].
  destruct s2 as [|e s3].
  { cbn [app]. destruct ws as [|w1 ws1]; [reflexivity|].
    apply andb_true_iff in Hws as [Hw1 Hws1].
    now rewrite (asciiSpace_not_third c d w1 Hw1). }
  cbn [app].
  destruct (spaceRune3 c d e) eqn:E3; [apply IH; simpl; lia|reflexivity].
Qed.

Lemma trimRightSpace_app_spaces (s ws : list ascii) :
  forallb asciiSpace ws = true ->
  trimRightSpace (s ++ ws) = trimRightSpace s.
Proof.
  intros H. unfold trimRightSpace. rewrite rev_app_distr.
  rewrite trimRevSpace_spaces; [reflexivity|].
  apply forallb_forall. intros c Hc. apply in_rev in Hc.
  rewrite forallb_forall in H. now apply H.
Qed.

Lemma trimSpaceBytes_pad (ws1 s ws2 : list ascii) :
  forallb asciiSpace ws1 = true -> forallb asciiSpace ws2 = true ->
  trimSpaceBytes (ws1 ++ s ++ ws2) = trimSpaceBytes s.
Proof.
  intros H1 H2. unfold trimSpaceBytes.
  rewrite trimLeftSpace_spaces by assumption.
  rewrite trimLeftSpace_app_spaces by assumption.
  destruct (trimLeftSpace s) as [|c t]; [reflexivity|].
  now apply trimRightSpace_app_spaces.
Qed.

(** *** The pattern on a text followed by bytes it cannot end in *)

(** A continuation that fails on every suffix makes the match fail. *)
Lemma starByte_none {R : Type} (p : ascii -> bool) (s : list ascii)
    (k : list ascii -> option R) :
  (forall q u, s = q ++ u -> k u = None) -> starByte p s k = None.
Proof.
  induction s as [|c s IH]; intros Hk; simpl.
  - now apply (Hk [] []).
  - rewrite IH.
    + destruct (p c); now apply (Hk [] (c :: s)).
    + intros q u ->. now apply (Hk (c :: q) u).
Qed.

Lemma rmatch_none {R : Type} (r : regex) :
  forall (s : list ascii) (cap : option (list ascii))
         (k : list ascii -> option (list ascii) -> option R),
    (forall q u cap', s = q ++ u -> k u cap' = None) ->
    rmatch r s cap k = None.
Proof.
  induction r as [p|r1 IH1 r2 IH2|r1 IH1|p|r1 IH1]; intros s cap k Hk;
    cbn [rmatch].
  - destruct s as [|c s']; [reflexivity|].
    destruct (p c); [|reflexivity]. now apply (Hk [c] s').
  - apply IH1. intros q u cap' ->. apply IH2.
    intros q' u' cap'' ->. apply (Hk (q ++ q') u'). now rewrite app_assoc.
  - rewrite IH1 by assumption. now apply (Hk [] s).
  - apply starByte_none. intros q u ->. now apply (Hk q u).
  - apply IH1. intros q u cap' ->. now apply (Hk q u).
Qed.

(** On a suffix that makes the continuation fail wherever the match
    ends inside it, a greedy star ends before it. *)
Lemma starByte_append {R : Type} (p : ascii -> bool) (t : list ascii)
    (k k' : list ascii -> option R) :
  (forall u t', t = u ++ t' -> u <> [] -> k t' = None) ->
  forall s,
    (forall q s', s = q ++ s' -> k (s' ++ t) = k' s') ->
    starByte p (s ++ t) k = starByte p s k'.
Proof.
  intros HB. induction s as [|c s IH]; intros HA.
  - cbn [app starByte]. rewrite <- (HA [] [] eq_refl). cbn [app].
    clear HA. revert HB. generalize k. clear k.
    induction t as [|c t IHt]; intros k HB; [reflexivity|].
    cbn [starByte]. rewrite IHt.
    + rewrite (HB [c] t eq_refl) by discriminate. now destruct (p c).
    + intros u t' -> Hu. apply (HB (c :: u) t'); [reflexivity|discriminate].
  - cbn [app starByte]. rewrite IH.
    + pose proof (HA [] (c :: s) eq_refl) as Hs. cbn [app] in Hs.
      now rewrite Hs.
    + intros q s' ->. now apply (HA (c :: q) s').
Qed.

Lemma firstn_diff_app (q s' t : list ascii) :
  firstn (length ((q ++ s') ++ t) - length (s' ++ t)) ((q ++ s') ++ t)
  = firstn (length (q ++ s') - length s') (q ++ s').
Proof.
  rewrite !length_app.
  replace (length q + length s' + length t - (length s' + length t))
    with (length q + 0) by lia.
  replace (length q + length s' - length s') with (length q + 0) by lia.
  rewrite <- !app_assoc. now rewrite !firstn_app_2.
Qed.

(** The same for a pattern: where every match that ends inside the
    suffix [t] is rejected, the pattern behaves on [s ++ t] as on [s]. *)
Lemma rmatch_append {R : Type} (t : list ascii) (r : regex) :
  forall (s : list ascii) (cap : option (list ascii))
         (k k' : list ascii -> option (list ascii) -> option R),
    (forall u t' cap', t = u ++ t' -> u <> [] -> k t' cap' = None) ->
    (forall q s' cap', s = q ++ s' -> k (s' ++ t) cap' = k' s' cap') ->
    rmatch r (s ++ t) cap k = rmatch r s cap k'.
Proof.
  induction r as [p|r1 IH1 r2 IH2|r1 IH1|p|r1 IH1];
    intros s cap k k' HB HA; cbn [rmatch].
  - destruct s as [|c s'].
    + cbn [app]. destruct t as [|c t']; [reflexivity|].
      rewrite (HB [c] t' cap eq_refl) by discriminate. now destruct (p c).
    + cbn [app]. destruct (p c); [|reflexivity].
      now apply (HA [c] s').
  - apply IH1.
    + intros u t' cap' -> Hu. apply rmatch_none.
      intros q u' cap'' ->. apply (HB (u ++ q) u').
      * now rewrite app_assoc.
      * destruct u; [contradiction|discriminate].
    + intros q s' cap' ->. apply IH2; [assumption|].
      intros q' s'' cap'' ->. apply (HA (q ++ q') s'').
      now rewrite app_assoc.
  - rewrite (IH1 s cap k k' HB HA). now rewrite (HA [] s cap eq_refl).
  - apply starByte_append.
    + intros u t' -> Hu. now apply (HB u t').
    + intros q s' ->. now apply (HA q s').
  - apply IH1.
    + intros u t' cap' -> Hu. now apply (HB u t').
    + intros q s' cap' ->. rewrite firstn_diff_app. now apply (HA q s').
Qed.

Lemma rmatch_jsonRegex {R : Type} (s : list ascii)
    (cap : option (list ascii))
    (k : list ascii -> option (list ascii) -> option R) :
  rmatch jsonRegex s cap k
  = rmatch untilClose s cap (fun s' cap' => rmatch fence3 s' cap' k).
Proof. reflexivity. Qed.

Lemma fence3_needs_bq {R : Type} (s : list ascii)
    (cap : option (list ascii))
    (k : list ascii -> option (list ascii) -> option R) :
  ~ In bq s -> rmatch fence3 s cap k = None.
Proof.
  intros H. destruct s as [|c s]; [reflexivity|].
  unfold fence3, lit. cbn [rmatch].
  destruct (Ascii.eqb_spec bq c) as [<-|Hne]; [|reflexivity].
  exfalso. apply H. now left.
Qed.

Lemma fence3_append {R : Type} (s t : list ascii)
    (cap : option (list ascii))
    (k k' : list ascii -> option (list ascii) -> option R) :
  ~ In bq t ->
  (forall q s', s = q ++ s' -> k (s' ++ t) cap = k' s' cap) ->
  rmatch fence3 (s ++ t) cap k = rmatch fence3 s cap k'.
Proof.
  intros Ht HA.
  assert (forall (c : ascii) (t' : list ascii) (x : option R),
            t = c :: t' -> (if Ascii.eqb bq c then x else None) = None)
    as Hhead.
  { intros c t' x ->. destruct (Ascii.eqb_spec bq c) as [<-|]; [|reflexivity].
    exfalso. apply Ht. now left. }
  unfold fence3, lit. cbn [rmatch].
  destruct s as [|c1 [|c2 [|c3 s']]]; cbn [app].
  - destruct t as [|c t']; [reflexivity|]. now apply (Hhead c t').
  - destruct (Ascii.eqb bq c1); [|reflexivity].
    destruct t as [|c t']; [reflexivity|]. now apply (Hhead c t').
  - destruct (Ascii.eqb bq c1); [|reflexivity].
    destruct (Ascii.eqb bq c2); [|reflexivity].
    destruct t as [|c t']; [reflexivity|]. now apply (Hhead c t').
  - destruct (Ascii.eqb bq c1); [|reflexivity].
    destruct (Ascii.eqb bq c2); [|reflexivity].
    destruct (Ascii.eqb bq c3); [|reflexivity].
    now apply (HA [c1; c2; c3] s').
Qed.

Lemma matchHere_append (s t : list ascii) :
  ~ In bq t -> matchHere jsonRegex (s ++ t) = matchHere jsonRegex s.
Proof.
  intros Ht. unfold matchHere. rewrite !rmatch_jsonRegex.
  apply rmatch_append.
  - intros u t' cap' -> Hu. apply fence3_needs_bq.
    intros Hin. apply Ht. apply in_or_app. now right.
  - intros q s' cap' ->. apply fence3_append; [assumption|].
    intros q' s'' ->. rewrite app_assoc. now rewrite firstn_diff_app.
Qed.

Lemma findSubmatch_no_bq (t : list ascii) :
  ~ In bq t -> findSubmatch jsonRegex t = None.
Proof.
  induction t as [|c t IH]; intros Ht; [reflexivity|].
  cbn [findSubmatch].
  rewrite matchHere_no_prefix.
  - apply IH. intros Hin. apply Ht. now right.
  - cbn [hasPrefixBytes]. destruct (Ascii.eqb_spec c bq) as [->|];
      [|reflexivity].
    exfalso. apply Ht. now left.
Qed.

Lemma findSubmatch_append (s t : list ascii) :
  ~ In bq t -> findSubmatch jsonRegex (s ++ t) = findSubmatch jsonRegex s.
Proof.
  intros Ht. induction s as [|c s IH].
  - cbn [app]. now rewrite findSubmatch_no_bq.
  - change ((c :: s) ++ t) with (c :: (s ++ t)). cbn [findSubmatch].
    change (c :: (s ++ t)) with ((c :: s) ++ t).
    now rewrite matchHere_append, IH.
Qed.

Lemma findSubmatch_prepend (p s : list ascii) :
  ~ In bq p -> findSubmatch jsonRegex (p ++ s) = findSubmatch jsonRegex s.
Proof.
  induction p as [|c p IH]; intros Hp; [reflexivity|].
  cbn [app findSubmatch]. rewrite matchHere_no_prefix.
  - apply IH. intros Hin. apply Hp. now right.
  - cbn [hasPrefixBytes]. destruct (Ascii.eqb_spec c bq) as [->|];
      [|reflexivity].
    exfalso. apply Hp. now left.
Qed.

Lemma spaces_no_bq (ws : list ascii) :
  forallb asciiSpace ws = true -> ~ In bq ws.
Proof.
  intros H Hin. rewrite forallb_forall in H. now specialize (H bq Hin).
Qed.

Local Open Scope string_scope.

Lemma jsonCandidate_pad (before raw after : string) :
  forallb asciiSpace (bytes before) = true ->
  forallb asciiSpace (bytes after) = true ->
  jsonCandidate (before ++ raw ++ after) = jsonCandidate raw.
Proof.
  intros Hb Ha. unfold jsonCandidate, FindStringSubmatch, TrimSpace.
  rewrite !bytes_app.
  rewrite findSubmatch_prepend by now apply spaces_no_bq.
  rewrite findSubmatch_append by now apply spaces_no_bq.
  now rewrite trimSpaceBytes_pad.
Qed.

Section Parse.

Variable jsonError : Type.
Variable json_Unmarshal :
  string -> LLMResponse -> LLMResponse * option jsonError.

(** X20.  ASCII white space before and after the answer of the model
    changes nothing: the JSON string handed to the decoder, and with it
    the record and the error of [ParseLLMResponse], are those of the
    answer without it. *)
Theorem surrounding_white_space_is_ignored (before raw after : string) :
  forallb asciiSpace (bytes before) = true ->
  forallb asciiSpace (bytes after) = true ->
  jsonCandidate (before ++ raw ++ after) = jsonCandidate raw
  /\ ParseLLMResponse jsonError json_Unmarshal (before ++ raw ++ after)
     = ParseLLMResponse jsonError json_Unmarshal raw.
Proof.
  intros Hb Ha. unfold ParseLLMResponse.
  now rewrite (jsonCandidate_pad before raw after Hb Ha).
Qed.

End Parse.

Lemma surrounding_white_space_is_ignored_witness :
  jsonCandidate (newline ++ blobFixBug ++ " ") = jsonCandidate blobFixBug
  /\ ParseLLMResponse string sampleUnmarshal (newline ++ blobFixBug ++ " ")
     = ParseLLMResponse string sampleUnmarshal blobFixBug.
Proof.
  apply (surrounding_white_space_is_ignored string sampleUnmarshal newline
           blobFixBug " ");
    reflexivity.
Defined.

(** A bare object between blank lines is parsed as the object alone. *)
Example padded_object :
  ParseLLMResponse string sampleUnmarshal
    (newline ++ "  " ++ docFixBug ++ newline)
  = ({| Summary := "Fix bug"; Description := "";
        ProjectNameSuggestion := "Web" |}, None).
Proof. vm_compute. reflexivity. Qed.

End PaddingSpec.
